(** * Query-parser plugins of whoosh ([whoosh/qparser/plugins.py])

    A shallow embedding of the filters that the parser plugins contribute,
    with the properties that the specification states about them.  The
    filters live in [plugins.py]; the syntax-node classes they manipulate
    ([whoosh.qparser.syntax]) are described by the data model of the
    specification and are modelled from it in the module [syntax]. *)

From Stdlib Require Import List String Bool Arith ZArith Lia PrimFloat.
From Stdlib Require Import Permutation.
Import ListNotations.
Open Scope string_scope.
Open Scope list_scope.

(** ** Python exceptions as an error monad

    [OutOfFuel] is no exception of Python: it is the outcome of a loop or
    of a chain of recursive calls that the model cuts off at its bound. *)

Inductive exn : Type :=
| IndexError
| AttributeError
| UnboundLocalError
| OutOfFuel.

Inductive result (A : Type) : Type :=
| Ok (a : A)
| Raise (e : exn).

Arguments Ok {A} a.
Arguments Raise {A} e.

Definition bind {A B : Type} (r : result A) (k : A -> result B) : result B :=
  match r with
  | Ok a => k a
  | Raise e => Raise e
  end.

Notation "x <- r ;; k" := (bind r (fun x => k))
  (at level 61, r at next level, right associativity).

(** ** The syntax-node model *)

Module syntax.

(** Modelled from the spec: the group subvariants of section 3
    ("And, Or, Not(prefix), AndNot, AndMaybe, Require"); the classes
    themselves are declared in [whoosh.qparser.syntax]. *)
Inductive grouptype : Type :=
| AndGroup
| OrGroup
| NotGroup
| AndNotGroup
| AndMaybeGroup
| RequireGroup.

Definition grouptype_eqb (a b : grouptype) : bool :=
  match a, b with
  | AndGroup, AndGroup | OrGroup, OrGroup | NotGroup, NotGroup
  | AndNotGroup, AndNotGroup | AndMaybeGroup, AndMaybeGroup
  | RequireGroup, RequireGroup => true
  | _, _ => false
  end.

(** Modelled from the spec: the arity of an operator marker ("prefix or
    infix", section 4.9). *)
Inductive optype : Type :=
| PrefixOperator
| InfixOperator.

Definition optype_eqb (a b : optype) : bool :=
  match a, b with
  | PrefixOperator, PrefixOperator | InfixOperator, InfixOperator => true
  | _, _ => false
  end.

(** Modelled from the spec: the subvariants of a text node that carry
    literal text (a phrase adds its slop). *)
Inductive textkind : Type :=
| Word
| Prefix
| Wildcard
| Phrase (slop : nat).

(** Modelled from the spec: what every content node carries besides its
    text: "optional field name, optional boost factor (default 1.0),
    optional start/end character offsets". *)
Record attrs : Type := mkAttrs {
  fieldname : option string;
  boost : float;
  startchar : option nat;
  endchar : option nat
}.

Definition default_attrs : attrs := mkAttrs None 1%float None None.

(** Modelled from the spec: the tagged union of syntax nodes of section 3.
    A group is "an ordered, mutable sequence of child SyntaxNodes plus a
    group-level boost" that "additionally carries a field-name
    association". *)
Inductive node : Type :=
| TextNode (k : textkind) (text : string) (a : attrs)
| RangeNode (start end_ : option string) (startexcl endexcl : bool) (a : attrs)
| Whitespace
| Plus
| Minus
| OpenBracket
| CloseBracket
| BoostNode (original : string) (b : float)
| GtLtNode (rel : string)
| FieldnameNode (fname original : string)
| Operator (ot : optype) (text : string) (gt : grouptype) (leftassoc : bool)
| GroupNode (g : group)
with group : Type :=
| Group (gt : grouptype) (nodes : list node) (gboost : float)
        (gfield : option string).

(** [syntax.WordNode(text)]: a word with the default attributes. *)
Definition WordNode (text : string) : node := TextNode Word text default_attrs.

Definition gtype (g : group) : grouptype := let (gt, _, _, _) := g in gt.
Definition nodes (g : group) : list node := let (_, ns, _, _) := g in ns.
Definition gboost_of (g : group) : float := let (_, _, b, _) := g in b.
Definition gfield_of (g : group) : option string := let (_, _, _, f) := g in f.

(** [grouptype()] and [grouptype(nodes)]: a fresh group, boost 1.0. *)
Definition new_group (gt : grouptype) (ns : list node) : group :=
  Group gt ns 1%float None.

(** Modelled from the spec: [group.empty_copy()], a group of the same
    kind with the same boost and field association and no children. *)
Definition empty_copy (g : group) : group :=
  let (gt, _, b, f) := g in Group gt [] b f.

(** [group.append(node)] and [group.extend(nodes)]. *)
Definition append (g : group) (n : node) : group :=
  let (gt, ns, b, f) := g in Group gt (ns ++ [n]) b f.

Definition extend (g : group) (ns' : list node) : group :=
  let (gt, ns, b, f) := g in Group gt (ns ++ ns') b f.

(** The truth value of a group ("if any ... operands"): it has children. *)

Definition nonempty (g : group) : bool :=
  match nodes g with [] => false | _ :: _ => true end.

(** [group[-1]]: indexing an empty sequence raises [IndexError]. *)
Definition last_node (g : group) : result node :=
  match rev (nodes g) with
  | [] => Raise IndexError
  | n :: _ => Ok n
  end.

(** [group[-1] = f(group[-1])], for a mutation in place of the last child. *)
Definition update_last (f : node -> node) (g : group) : group :=
  let (gt, ns, b, fl) := g in
  match rev ns with
  | [] => g
  | n :: r => Group gt (rev r ++ [f n]) b fl
  end.

(** Modelled from the spec: the capability flags ("has text", "has field
    name", "has boost") of section 9, by node variant of section 3: text
    nodes carry text, field name and boost; a range carries bounds "in
    place of literal text"; a group carries a boost and a field
    association; markers and operators carry none. *)
Definition has_text (n : node) : bool :=
  match n with
  | TextNode _ _ _ => true
  | _ => false
  end.

Definition has_boost (n : node) : bool :=
  match n with
  | TextNode _ _ _ | RangeNode _ _ _ _ _ | GroupNode _ => true
  | _ => false
  end.

Definition has_fieldname (n : node) : bool :=
  match n with
  | TextNode _ _ _ | RangeNode _ _ _ _ _ | GroupNode _ => true
  | _ => false
  end.

Definition is_ws (n : node) : bool :=
  match n with
  | Whitespace => true
  | _ => false
  end.

Definition is_group (n : node) : bool :=
  match n with
  | GroupNode _ => true
  | _ => false
  end.

(** [node.text]: an attribute of the nodes that have text only. *)
Definition node_text (n : node) : result string :=
  match n with
  | TextNode _ t _ => Ok t
  | _ => Raise AttributeError
  end.

Definition node_boost (n : node) : option float :=
  match n with
  | TextNode _ _ a | RangeNode _ _ _ _ a => Some (boost a)
  | GroupNode g => Some (gboost_of g)
  | _ => None
  end.

Definition node_fieldname (n : node) : option string :=
  match n with
  | TextNode _ _ a | RangeNode _ _ _ _ a => fieldname a
  | GroupNode g => gfield_of g
  | _ => None
  end.

Definition with_boost (a : attrs) (b : float) : attrs :=
  mkAttrs (fieldname a) b (startchar a) (endchar a).

Definition with_fieldname (a : attrs) (f : option string) : attrs :=
  mkAttrs f (boost a) (startchar a) (endchar a).

Definition with_chars (a : attrs) (s e : option nat) : attrs :=
  mkAttrs (fieldname a) (boost a) s e.

(** Modelled from the spec: [node.set_boost(v)].  Section 4.4: the apply
    pass "multiplies that node's boost by the marker's numeric value"; on
    a node without boost capability it does nothing. *)
Definition set_boost (n : node) (v : float) : node :=
  match n with
  | TextNode k t a => TextNode k t (with_boost a (boost a * v))
  | RangeNode s e se ee a => RangeNode s e se ee (with_boost a (boost a * v))
  | GroupNode (Group gt ns b f) => GroupNode (Group gt ns (b * v) f)
  | _ => n
  end.

(** The field name a node ends with when [name] is assigned to it: kept
    when already set, unless the caller may override. *)
Definition assign_field (old : option string) (name : string)
    (override : bool) : option string :=
  match old with
  | Some f => if override then Some name else Some f
  | None => Some name
  end.

(** Modelled from the spec: [node.set_fieldname(name, override)].
    Section 4.6 assigns the name "without overriding an already-set field
    name"; a group propagates the association to its children (sections 3
    and 8, "title:(hello world)"); a node without field-name capability
    is left alone. *)
Fixpoint set_fieldname (name : string) (override : bool) (n : node) : node :=
  match n with
  | TextNode k t a =>
      TextNode k t (with_fieldname a (assign_field (fieldname a) name override))
  | RangeNode s e se ee a =>
      RangeNode s e se ee
        (with_fieldname a (assign_field (fieldname a) name override))
  | GroupNode (Group gt ns b f) =>
      GroupNode (Group gt (map (set_fieldname name override) ns) b
                   (assign_field f name override))
  | _ => n
  end.

Definition is_operator (n : node) : bool :=
  match n with
  | Operator _ _ _ _ => true
  | _ => false
  end.

(** Modelled from the spec: the group kinds that take one more operand
    when a chain of the same operator is resolved ("chained flattening",
    section 4.9).  And and Or are the unordered kinds; the binary kinds
    nest, as section 8 requires of ["a ANDNOT b ANDNOT c"]. *)
Definition merging (gt : grouptype) : bool :=
  match gt with
  | AndGroup | OrGroup => true
  | _ => false
  end.

(** The operator stays where it is, and the scan goes on past it: to the
    right when it reads left to right, to the left otherwise (the caller
    subtracts one). *)
Definition unconsumed (leftassoc : bool) (group : list node) (position : nat)
    : list node * nat :=
  (group, if leftassoc then S position else position).

(** The group that an infix operator makes of its two operands. *)
Definition infix_group (gt : grouptype) (leftassoc : bool) (l r : node)
    : node :=
  match (if leftassoc then l else r) with
  | GroupNode (Group gt' ns b f) =>
      if merging gt && grouptype_eqb gt' gt
      then GroupNode (Group gt' (if leftassoc then ns ++ [r] else l :: ns) b f)
      else GroupNode (new_group gt [l; r])
  | _ => GroupNode (new_group gt [l; r])
  end.

(** Modelled from the spec: [operator.replace_self(parser, group,
    position)], as "a pure function over (sequence, index) returning (new
    sequence, next index)" (section 9).  Section 4.9: the marker and its
    adjacent operands are replaced "with a new GroupNode of the bound
    group-type containing those operands (prefix operators consume one
    following operand; infix operators consume one preceding and one
    following operand, merging into the same group-type if the adjacent
    operand is already a group of that type"; an operator "at a position
    where it has no valid operand (start/end of sequence, or adjacent to
    another unresolved operator) is left as an unconsumed marker". *)
Definition replace_self (op : node) (group : list node) (position : nat)
    : list node * nat :=
  match op with
  | Operator PrefixOperator _ gt la =>
      match nth_error group (S position) with
      | Some x =>
          if is_operator x then unconsumed la group position
          else (firstn position group ++
                  GroupNode (new_group gt [x]) :: skipn (position + 2) group,
                position)
      | None => unconsumed la group position
      end
  | Operator InfixOperator _ gt la =>
      match position with
      | O => unconsumed la group position
      | S before =>
          match nth_error group before, nth_error group (S position) with
          | Some l, Some r =>
              if is_operator l || is_operator r
              then unconsumed la group position
              else (firstn before group ++
                      infix_group gt la l r :: skipn (position + 2) group,
                    position)
          | _, _ => unconsumed la group position
          end
      end
  | _ => (group, S position)
  end.

End syntax.

Import syntax.

(** ** The parser context *)

(** What a filter reads of the parser: the schema (the names of its
    fields; [None] when the parser has no schema or one that counts as
    false), the default field and the default group kind that
    [parser.group()] builds. *)
Record parser : Type := mkParser {
  schema : option (list string);
  default_field : string;
  parser_group : grouptype
}.

(** [name in schema]. *)
Definition in_schema (name : string) (s : list string) : bool :=
  existsb (String.eqb name) s.

(** The filters, by name, for the [(filter, priority)] pairs that the
    plugins register. *)
Inductive filter_name : Type :=
| F_remove_whitespace
| F_clean_boost
| F_do_boost
| F_do_groups
| F_do_fieldnames
| F_do_operators
| F_do_plusminus
| F_do_gtlt.

(** ** WhitespacePlugin *)


(** One turn of the loop of [remove_whitespace]; [rec] is the recursive
    call. *)
Definition remove_whitespace_step (rec : group -> group) (newgroup : group)
    (n : node) : group :=
  match n with
  | GroupNode g' => append newgroup (GroupNode (rec g'))
  | _ => if negb (is_ws n) then append newgroup n else newgroup
  end.

Fixpoint remove_whitespace (p : parser) (g : group) : group :=
  match g with
  | Group _ ns _ _ =>
      fold_left (remove_whitespace_step (remove_whitespace p)) ns (empty_copy g)
  end.

(** No whitespace node anywhere in the tree. *)
Fixpoint ws_free (g : group) : bool :=
  match g with
  | Group _ ns _ _ =>
      forallb
        (fun n =>
           match n with
           | GroupNode g' => ws_free g'
           | _ => negb (is_ws n)
           end)
        ns
  end.

(** ** GtLtPlugin *)

Definition GtLtPlugin_filters : list (filter_name * nat) := [(F_do_gtlt, 99)].

Definition is_fieldname_node (n : node) : bool :=
  match n with
  | FieldnameNode _ _ => true
  | _ => false
  end.

(** [syntax.RangeNode(start, end, startexcl, endexcl)]. *)
Definition new_range (start end_ : option string) (startexcl endexcl : bool)
    : node :=
  RangeNode start end_ startexcl endexcl default_attrs.

Definition node_attrs (n : node) : attrs :=
  match n with
  | TextNode _ _ a | RangeNode _ _ _ _ a => a
  | _ => default_attrs
  end.

Definition set_chars (n : node) (s e : option nat) : node :=
  match n with
  | RangeNode st en se ee a => RangeNode st en se ee (with_chars a s e)
  | _ => n
  end.

(** [n] stays unbound when [rel] is none of the six symbols, and the
    assignment to [n.startchar] then raises. *)
Definition make_range (n : node) (rel : string) : result node :=
  text <- node_text n ;;
  r <- (if rel =? "<" then Ok (new_range None (Some text) false true)
        else if rel =? ">" then Ok (new_range (Some text) None true false)
        else if (rel =? "<=") || (rel =? "=<")
             then Ok (new_range None (Some text) false false)
        else if (rel =? ">=") || (rel =? "=>")
             then Ok (new_range (Some text) None false false)
        else Raise UnboundLocalError) ;;
  Ok (set_chars r (startchar (node_attrs n)) (endchar (node_attrs n))).

(** The index [i] of the loop is carried as the part [group[i:]] of the
    group that is still to be read: [i < lasti] holds when a node follows
    [group[i]], and skipping the next node drops two nodes at once. *)
Fixpoint do_gtlt_loop (rest : list node) (newgroup : group) : result group :=
  match rest with
  | [] => Ok newgroup
  | GtLtNode rel :: rest' =>
      match rest' with
      | nextnode :: rest'' =>
          prevnode <- last_node newgroup ;;
          if is_fieldname_node prevnode && has_text nextnode then
            r <- make_range nextnode rel ;;
            do_gtlt_loop rest'' (append newgroup r)
          else do_gtlt_loop rest' newgroup
      | [] => do_gtlt_loop rest' newgroup
      end
  | n :: rest' => do_gtlt_loop rest' (append newgroup n)
  end.

Definition do_gtlt (p : parser) (g : group) : result group :=
  do_gtlt_loop (nodes g) (empty_copy g).

(** A comparison marker among the children of a group. *)
Definition is_gtlt (n : node) : bool :=
  match n with
  | GtLtNode _ => true
  | _ => false
  end.

(** ** BoostPlugin *)

Definition BoostPlugin_filters : list (filter_name * nat) :=
  [(F_clean_boost, 0); (F_do_boost, 700)].

(** [newgroup and newgroup[-1].has_boost], with its short circuit. *)
Definition last_has_boost (newgroup : group) : bool :=
  nonempty newgroup &&
  match last_node newgroup with
  | Ok m => has_boost m
  | Raise _ => false
  end.

(** One turn of the loop of [do_boost]; [rec] is the recursive call. *)
Definition do_boost_step (rec : group -> group) (newgroup : group) (n : node)
    : group :=
  match n with
  | GroupNode g' => append newgroup (GroupNode (rec g'))
  | BoostNode original b =>
      if last_has_boost newgroup
      then update_last (fun m => set_boost m b) newgroup
      else append newgroup (WordNode original)
  | _ => append newgroup n
  end.

Fixpoint do_boost (p : parser) (g : group) : group :=
  match g with
  | Group _ ns _ _ => fold_left (do_boost_step (do_boost p)) ns (empty_copy g)
  end.

(** ** GroupPlugin *)

Definition GroupPlugin_filters : list (filter_name * nat) := [(F_do_groups, 0)].

(** The stack of [do_groups] is a Python list: its base is [stack[0]], its
    top is [stack[-1]]. *)

(** [stack.pop()]: the list without its last item, and that item. *)
Definition stack_pop (stack : list group) : result (list group * group) :=
  match rev stack with
  | [] => Raise IndexError
  | top :: below => Ok (rev below, top)
  end.

(** [stack[-1].append(n)]. *)
Definition stack_top_append (stack : list group) (n : node)
    : result (list group) :=
  match rev stack with
  | [] => Raise IndexError
  | top :: below => Ok (rev below ++ [append top n])
  end.

Definition do_groups_step (p : parser) (stack : list group) (n : node)
    : result (list group) :=
  match n with
  | OpenBracket => Ok (stack ++ [new_group (parser_group p) []])
  | CloseBracket =>
      if (1 <? List.length stack)%nat then
        popped <- stack_pop stack ;;
        stack_top_append (fst popped) (GroupNode (snd popped))
      else Ok stack
  | _ => stack_top_append stack n
  end.

Fixpoint do_groups_loop (p : parser) (ns : list node) (stack : list group)
    : result (list group) :=
  match ns with
  | [] => Ok stack
  | n :: ns' =>
      stack' <- do_groups_step p stack n ;;
      do_groups_loop p ns' stack'
  end.

(** [for ls in stack[1:]: top.extend(ls)]. *)
Definition extend_all (top : group) (levels : list group) : group :=
  fold_left (fun t ls => extend t (nodes ls)) levels top.

(** The end of [do_groups]: a top level that holds one group and nothing
    else is replaced by that group, which takes its boost. *)
Definition collapse (top : group) : group :=
  match nodes top with
  | [GroupNode (Group gt ns _ f)] => Group gt ns (gboost_of top) f
  | _ => top
  end.

Definition do_groups (p : parser) (g : group) : result group :=
  stack <- do_groups_loop p (nodes g) [new_group (parser_group p) []] ;;
  match stack with
  | [] => Raise IndexError
  | top :: levels =>
      let top := if (1 <? List.length stack)%nat then extend_all top levels else top in
      Ok (collapse top)
  end.

Definition is_open (n : node) : bool :=
  match n with
  | OpenBracket => true
  | _ => false
  end.

Definition is_close (n : node) : bool :=
  match n with
  | CloseBracket => true
  | _ => false
  end.

Definition count_nodes (f : node -> bool) (ns : list node) : nat :=
  List.length (filter f ns).

(** ** PlusMinusPlugin *)

Definition PlusMinusPlugin_filters : list (filter_name * nat) :=
  [(F_do_plusminus, 510)].

(** [next] names one of the three groups that the loop fills; the name
    stands for the reference that the code keeps. *)
Inductive bucket : Type :=
| Required
| Optional
| Banned.

Record plusminus_state : Type := mkPM {
  next : bucket;
  required : group;
  optional : group;
  banned : group
}.

Definition do_plusminus_step (st : plusminus_state) (n : node)
    : plusminus_state :=
  match n with
  | Plus => mkPM Required (required st) (optional st) (banned st)
  | Minus => mkPM Banned (required st) (optional st) (banned st)
  | _ =>
      match next st with
      | Required =>
          mkPM Optional (append (required st) n) (optional st) (banned st)
      | Optional =>
          mkPM Optional (required st) (append (optional st) n) (banned st)
      | Banned =>
          mkPM Optional (required st) (optional st) (append (banned st) n)
      end
  end.

Definition do_plusminus_loop (ns : list node) : plusminus_state :=
  fold_left do_plusminus_step ns
    (mkPM Optional (new_group AndGroup []) (new_group OrGroup [])
       (new_group OrGroup [])).

Definition do_plusminus (p : parser) (g : group) : group :=
  let st := do_plusminus_loop (nodes g) in
  let group := optional st in
  let group :=
    if nonempty (required st)
    then new_group AndMaybeGroup [GroupNode (required st); GroupNode group]
    else group in
  let group :=
    if nonempty (banned st)
    then new_group AndNotGroup [GroupNode group; GroupNode (banned st)]
    else group in
  group.

Definition is_plusminus (n : node) : bool :=
  match n with
  | Plus | Minus => true
  | _ => false
  end.

Definition bucket_eqb (a b : bucket) : bool :=
  match a, b with
  | Required, Required | Optional, Optional | Banned, Banned => true
  | _, _ => false
  end.

(** The buckets as the specification words them: an operand goes to the
    bucket named by "the most recently seen marker (reset to optional
    after consuming one operand)", so a marker is in force only for the
    operand that comes right after it. *)
Definition bucket_after (prev : option node) : bucket :=
  match prev with
  | Some Plus => Required
  | Some Minus => Banned
  | _ => Optional
  end.

Fixpoint operands_of (sel : bucket) (prev : option node) (ns : list node)
    : list node :=
  match ns with
  | [] => []
  | n :: ns' =>
      if negb (is_plusminus n) && bucket_eqb (bucket_after prev) sel
      then n :: operands_of sel (Some n) ns'
      else operands_of sel (Some n) ns'
  end.

(** ** FieldsPlugin *)

Definition FieldsPlugin_filters : list (filter_name * nat) :=
  [(F_do_fieldnames, 100)].

(** The plugin's configuration ([self.removeunknown]). *)
Record FieldsPlugin : Type := mkFieldsPlugin {
  removeunknown : bool
}.

(** The truth value of the pending text: [None] and the empty string are
    false. *)
Definition truthy (text : option string) : bool :=
  match text with
  | Some t => negb (t =? "")
  | None => false
  end.

Definition pending (text : option string) : string :=
  match text with
  | Some t => t
  | None => ""
  end.

(** [node.text = text + node.text]. *)
Definition prepend_text (text : string) (n : node) : node :=
  match n with
  | TextNode k t a => TextNode k (text ++ t)%string a
  | _ => n
  end.

(** One turn of the first loop of [do_fieldnames], which turns the markers
    of unknown fields into text; the state is [newgroup] and [text]. *)
Definition unknown_step (sch : list string) (st : group * option string)
    (n : node) : group * option string :=
  let (newgroup, text) := st in
  match n with
  | FieldnameNode fname original =>
      if negb (in_schema fname sch) then (newgroup, Some original)
      else if truthy text
      then (append (append newgroup (WordNode (pending text))) n, None)
      else (append newgroup n, text)
  | _ =>
      if truthy text then
        if has_text n
        then (append newgroup (prepend_text (pending text) n), None)
        else (append (append newgroup (WordNode (pending text))) n, None)
      else (append newgroup n, text)
  end.

Definition remove_unknown (sch : list string) (g : group) : group :=
  let (newgroup, text) :=
    fold_left (unknown_step sch) (nodes g) (empty_copy g, None) in
  if truthy text then append newgroup (WordNode (pending text)) else newgroup.

(** The second loop of [do_fieldnames] reads the group from its end: the
    index [i] is carried as the nodes [group[:i]] in reverse order, so
    that [group[i - 1]] is the head of what is left and the second
    [i -= 1] drops it.  [rec] is the recursive call, and [field_visit] is
    what the loop makes of [group[i]] before it looks at [group[i - 1]]. *)
Definition field_visit (rec : group -> result group) (n : node)
    : result node :=
  match n with
  | FieldnameNode _ original => Ok (WordNode original)
  | GroupNode g' => g'' <- rec g' ;; Ok (GroupNode g'')
  | _ => Ok n
  end.

Fixpoint assign_fields (rec : group -> result group) (rleft : list node)
    (newgroup : group) : result group :=
  match rleft with
  | [] => Ok newgroup
  | n :: rleft' =>
      n' <- field_visit rec n ;;
      match rleft' with
      | FieldnameNode fname _ :: rleft'' =>
          if negb (is_ws n')
          then assign_fields rec rleft''
                 (append newgroup (set_fieldname fname false n'))
          else assign_fields rec rleft' (append newgroup n')
      | _ => assign_fields rec rleft' (append newgroup n')
      end
  end.

(** [newgroup.reverse()]. *)
Definition reverse (g : group) : group :=
  let (gt, ns, b, f) := g in Group gt (rev ns) b f.

(** [if self.removeunknown and parser.schema: ... group = newgroup]: the
    group that the second loop reads.  [parser.schema] is [None] when the
    parser has no schema. *)
Definition first_loop (self : FieldsPlugin) (p : parser) (g : group) : group :=
  match schema p with
  | Some sch => if removeunknown self then remove_unknown sch g else g
  | None => g
  end.

(** [do_fieldnames] calls itself on the groups it meets while it reads the
    outcome of its first loop; [fuel] bounds the depth of these calls. *)
Fixpoint do_fieldnames (fuel : nat) (self : FieldsPlugin) (p : parser)
    (g : group) : result group :=
  match fuel with
  | O => Raise OutOfFuel
  | S fuel' =>
      let group := first_loop self p g in
      newgroup <- assign_fields (do_fieldnames fuel' self p)
                    (rev (nodes group)) (empty_copy group) ;;
      Ok (reverse newgroup)
  end.

(** The nesting depth of a group: the fuel that [do_fieldnames] needs. *)
Fixpoint depth (g : group) : nat :=
  match g with
  | Group _ ns _ _ =>
      S (fold_right
           (fun n d =>
              match n with
              | GroupNode g' => Nat.max (depth g') d
              | _ => d
              end)
           0 ns)
  end.

(** ** OperatorsPlugin *)

Definition OperatorsPlugin_filters : list (filter_name * nat) :=
  [(F_do_operators, 600)].

(** [OpTagger(expr, grouptype, optype=InfixOperator, leftassoc=True)]. *)
Record OpTagger : Type := mkOpTagger {
  expr : string;
  tg_grouptype : grouptype;
  tg_optype : optype;
  tg_leftassoc : bool
}.

Definition ot (e : string) (gt : grouptype) : OpTagger :=
  mkOpTagger e gt InfixOperator true.

Definition ot_with (e : string) (gt : grouptype) (o : optype) : OpTagger :=
  mkOpTagger e gt o true.

Definition add_op (pattern : option string) (mk : string -> OpTagger)
    (priority : Z) (ops : list (OpTagger * Z)) : list (OpTagger * Z) :=
  if truthy pattern then ops ++ [(mk (pending pattern), priority)] else ops.

(** [OperatorsPlugin.__init__]: the value of [self.ops]. *)
Definition OperatorsPlugin_init (ops : list (OpTagger * Z)) (clean : bool)
    (And Or AndNot AndMaybe Not Require : option string)
    : list (OpTagger * Z) :=
  if negb clean then
    let ops := add_op Not (fun e => ot_with e NotGroup PrefixOperator) 0%Z ops in
    let ops := add_op And (fun e => ot e AndGroup) 0%Z ops in
    let ops := add_op Or (fun e => ot e OrGroup) 0%Z ops in
    let ops := add_op AndNot (fun e => ot e AndNotGroup) (-5)%Z ops in
    let ops := add_op AndMaybe (fun e => ot e AndMaybeGroup) (-5)%Z ops in
    let ops := add_op Require (fun e => ot e RequireGroup) 0%Z ops in
    ops
  else ops.

(** The plugin with the default values of the arguments. *)
Definition default_ops : list (OpTagger * Z) :=
  OperatorsPlugin_init [] false
    (Some "\sAND\s") (Some "\sOR\s") (Some "\sANDNOT\s")
    (Some "\sANDMAYBE\s") (Some "(^|(?<= ))NOT\s")
    (Some "(^|(?<= ))REQUIRE\s").

(** [isinstance(t, optype)]. *)
Definition is_optype (o : optype) (t : node) : bool :=
  match t with
  | Operator o' _ _ _ => optype_eqb o' o
  | _ => false
  end.

(** [t.grouptype is gtype]. *)
Definition has_grouptype (gt : grouptype) (t : node) : bool :=
  match t with
  | Operator _ _ gt' _ => grouptype_eqb gt' gt
  | _ => false
  end.

(** The loop over a left-associative kind; [fuel] bounds its turns. *)
Fixpoint scan_left (fuel : nat) (tagger : OpTagger) (group : list node)
    (i : nat) : result (list node) :=
  if (i <? List.length group)%nat then
    match fuel with
    | O => Raise OutOfFuel
    | S fuel' =>
        match nth_error group i with
        | Some t =>
            if is_optype (tg_optype tagger) t
               && has_grouptype (tg_grouptype tagger) t
            then let (group', i') := replace_self t group i in
                 scan_left fuel' tagger group' i'
            else scan_left fuel' tagger group (S i)
        | None => Raise IndexError
        end
    end
  else Ok group.

(** The loop over a right-associative kind. *)
Fixpoint scan_right (fuel : nat) (tagger : OpTagger) (group : list node)
    (i : Z) : result (list node) :=
  if (0 <=? i)%Z then
    match fuel with
    | O => Raise OutOfFuel
    | S fuel' =>
        match nth_error group (Z.to_nat i) with
        | Some t =>
            if is_optype (tg_optype tagger) t
            then let (group', i') := replace_self t group (Z.to_nat i) in
                 scan_right fuel' tagger group' (Z.of_nat i' - 1)%Z
            else scan_right fuel' tagger group (i - 1)%Z
        | None => Raise IndexError
        end
    end
  else Ok group.

(** The turn of the outer loop for one tagger of [self.ops]. *)
Definition resolve (tagger : OpTagger) (group : list node)
    : result (list node) :=
  if tg_leftassoc tagger
  then scan_left (S (List.length group)) tagger group 0
  else scan_right (S (List.length group)) tagger group
         (Z.of_nat (List.length group) - 1)%Z.

Fixpoint resolve_all (ops : list (OpTagger * Z)) (group : list node)
    : result (list node) :=
  match ops with
  | [] => Ok group
  | (tagger, _) :: ops' =>
      group' <- resolve tagger group ;;
      resolve_all ops' group'
  end.

(** [for i, t in enumerate(group): ... group[i] = self.do_operators(...)]. *)
Fixpoint descend (rec : group -> result group) (ns : list node)
    : result (list node) :=
  match ns with
  | [] => Ok []
  | GroupNode g' :: ns' =>
      g'' <- rec g' ;;
      rest <- descend rec ns' ;;
      Ok (GroupNode g'' :: rest)
  | t :: ns' =>
      rest <- descend rec ns' ;;
      Ok (t :: rest)
  end.

(** [do_operators] calls itself on the groups that it finds once the
    operators of its own level are resolved; [fuel] bounds the depth of
    these calls. *)
Fixpoint do_operators (fuel : nat) (ops : list (OpTagger * Z)) (p : parser)
    (g : group) : result group :=
  match fuel with
  | O => Raise OutOfFuel
  | S fuel' =>
      let (gt, ns, b, f) := g in
      ns1 <- resolve_all ops ns ;;
      ns2 <- descend (do_operators fuel' ops p) ns1 ;;
      Ok (Group gt ns2 b f)
  end.

(** ** Notions that the statements use *)

(** The range node that [make_range] builds from the operand [n]: the
    given bounds and flags, and the offsets of [n]. *)
Definition range_of (n : node) (start end_ : option string)
    (startexcl endexcl : bool) : node :=
  RangeNode start end_ startexcl endexcl
    (with_chars default_attrs (startchar (node_attrs n))
       (endchar (node_attrs n))).

(** The children that the loop of [remove_whitespace] appends. *)
Definition kept_nodes (rec : group -> group) (ns : list node) : list node :=
  flat_map
    (fun n =>
       match n with
       | GroupNode g' => [GroupNode (rec g')]
       | _ => if is_ws n then [] else [n]
       end)
    ns.

Definition whitespace_free_tree : group :=
  Group AndGroup
    [WordNode "a";
     GroupNode (Group OrGroup [WordNode "b"; WordNode "c"] 2%float None)]
    1%float None.

Definition unbalanced_query : group :=
  Group AndGroup
    [OpenBracket; WordNode "a"; Operator InfixOperator " AND " AndGroup true;
     WordNode "b"]
    1%float None.

(** What the loop of [do_boost] appends for a node that is no boost
    marker: the node, or the filtered group. *)
Definition boost_visited (p : parser) (n : node) : node :=
  match n with
  | GroupNode g' => GroupNode (do_boost p g')
  | _ => n
  end.

(** The next node to read is no boost marker. *)
Definition no_boost_ahead (post : list node) : bool :=
  match post with
  | BoostNode _ _ :: _ => false
  | _ => true
  end.

(** The end of the first loop: the pending text, if any, becomes a word. *)
Definition flush (st : group * option string) : group :=
  let (newgroup, text) := st in
  if truthy text then append newgroup (WordNode (pending text)) else newgroup.

(** The marker that the node just visited takes its field from, and what
    is then left to read. *)
Definition consumed (n' : node) (rleft' : list node)
    : option (string * list node) :=
  match rleft' with
  | FieldnameNode fname _ :: rleft'' =>
      if negb (is_ws n') then Some (fname, rleft'') else None
  | _ => None
  end.

(** [l1] is [l2] with some of its items left out. *)
Inductive subseq {A : Type} : list A -> list A -> Prop :=
| subseq_nil : subseq [] []
| subseq_keep (x : A) (l1 l2 : list A) :
    subseq l1 l2 -> subseq (x :: l1) (x :: l2)
| subseq_skip (x : A) (l1 l2 : list A) :
    subseq l1 l2 -> subseq l1 (x :: l2).

Definition set_name (f : option string) : list string :=
  match f with
  | Some name => [name]
  | None => []
  end.

(** The field names that are set in a tree, in the order of the tree: a
    group's own before those of its children.  A field-name marker names
    a field but has none set on itself. *)
Fixpoint fieldnames_set (n : node) : list string :=
  match n with
  | TextNode _ _ a | RangeNode _ _ _ _ a => set_name (fieldname a)
  | GroupNode (Group _ ns _ f) => set_name f ++ flat_map fieldnames_set ns
  | _ => []
  end.

Definition fieldnames_of (ns : list node) : list string :=
  flat_map fieldnames_set ns.

Definition fielded_query : group :=
  Group AndGroup
    [FieldnameNode "title" "title:";
     TextNode Word "x" (mkAttrs (Some "body") 1%float None None)]
    1%float None.

(** What [do_operators] reads of a tagger. *)
Definition tagger_kind (o : OpTagger * Z) : optype * grouptype * bool :=
  (tg_optype (fst o), tg_grouptype (fst o), tg_leftassoc (fst o)).

(** The operator markers of a group carry the associativity [la]: the
    taggers that made them were all registered with it. *)
Definition assoc_is (la : bool) (t : node) : Prop :=
  match t with
  | Operator _ _ _ la' => la' = la
  | _ => True
  end.

(** Every node of a tree that is no group passes the test [ok], at any
    depth. *)
Fixpoint every_leaf (ok : node -> bool) (g : group) : bool :=
  match g with
  | Group _ ns _ _ =>
      forallb
        (fun n =>
           match n with
           | GroupNode g' => every_leaf ok g'
           | _ => ok n
           end)
        ns
  end.

Definition leaf_ok (ok : node -> bool) (n : node) : bool :=
  match n with
  | GroupNode g' => every_leaf ok g'
  | _ => ok n
  end.

Definition is_boost_marker (n : node) : bool :=
  match n with
  | BoostNode _ _ => true
  | _ => false
  end.

Definition no_boost_marker (n : node) : bool := negb (is_boost_marker n).

(** [BoostPlugin.clean_boost].  The loop assigns to [group[i]] while it
    enumerates the group, so that [group[i - 1]] is read after it may have
    been replaced: the new group stands for the part [group[:i]] as the
    assignments have left it, and [not i or not group[i - 1].has_boost] is
    the negation of [last_has_boost] of that part.  The filter does not
    look into nested groups. *)
Definition clean_boost_step (done : group) (n : node) : group :=
  match n with
  | BoostNode original _ =>
      if negb (last_has_boost done)
      then append done (WordNode original)
      else append done n
  | _ => append done n
  end.

Definition clean_boost (p : parser) (g : group) : group :=
  fold_left clean_boost_step (nodes g) (empty_copy g).

(** Every boost marker of the list comes right after a node with boost
    capability; [prev] is the node before the list. *)
Fixpoint boosts_apply (prev : option node) (l : list node) : bool :=
  match l with
  | [] => true
  | n :: l' =>
      (if is_boost_marker n
       then match prev with
            | Some m => has_boost m
            | None => false
            end
       else true)
      && boosts_apply (Some n) l'
  end.

(** What [clean_boost] may make of a node: the node itself, or the word of
    a marker's original text. *)
Definition kept_or_demoted (n m : node) : Prop :=
  m = n \/ exists original v, n = BoostNode original v /\ m = WordNode original.

(** The symbols that [make_range] knows. *)
Definition known_rel (rel : string) : bool :=
  (rel =? "<") || (rel =? ">") || (rel =? "<=") || (rel =? "=<")
  || (rel =? ">=") || (rel =? "=>").

Definition marker_with_known_rel (n : node) : bool :=
  match n with
  | GtLtNode rel => known_rel rel
  | _ => true
  end.

Definition no_bracket (n : node) : bool := negb (is_open n || is_close n).

(** The nodes of a tree that are no groups, in the order of the tree. *)
Fixpoint leaves (g : group) : list node :=
  match g with
  | Group _ ns _ _ =>
      flat_map
        (fun n =>
           match n with
           | GroupNode g' => leaves g'
           | _ => [n]
           end)
        ns
  end.

Definition node_leaves (n : node) : list node :=
  match n with
  | GroupNode g' => leaves g'
  | _ => [n]
  end.

Definition no_plusminus (n : node) : bool := negb (is_plusminus n).

Definition no_fieldname_marker (n : node) : bool := negb (is_fieldname_node n).

(** A node that is no marker of a field unknown to the schema. *)
Definition no_unknown_marker (sch : list string) (n : node) : bool :=
  match n with
  | FieldnameNode name _ => in_schema name sch
  | _ => true
  end.

(** The first loop of [do_fieldnames] is switched off. *)
Definition keeps_unknown (self : FieldsPlugin) (p : parser) : Prop :=
  schema p = None \/ removeunknown self = false.

Definition no_operator (n : node) : bool := negb (is_operator n).

(** ** MultifieldPlugin *)

(** The plugin's configuration: [self.fieldnames], [self.boosts] (a
    dictionary, here the list of its items) and [self.group]. *)
Record MultifieldPlugin : Type := mkMultifieldPlugin {
  mf_fieldnames : list string;
  mf_boosts : list (string * float);
  mf_group : grouptype
}.

(** [self.boosts.get(fname, 1.0)]. *)
Fixpoint boosts_get (boosts : list (string * float)) (fname : string) : float :=
  match boosts with
  | [] => 1%float
  | (k, v) :: boosts' => if k =? fname then v else boosts_get boosts' fname
  end.

(** The copies of an unfielded node, one for each of the fields.  A copy
    of a node that is no group shares nothing with the node, and the
    field of the copy is not set, so that [set_fieldname(fname)] sets it
    whatever the default of its second argument. *)
Definition fielded_copies (self : MultifieldPlugin) (n : node) : list node :=
  map (fun fname =>
         set_boost (set_fieldname fname false n)
           (boosts_get (mf_boosts self) fname))
    (mf_fieldnames self).

Definition is_unset (f : option string) : bool :=
  match f with
  | Some _ => false
  | None => true
  end.

(** What [do_multifield] puts in the place of a node; [rec] is the
    recursive call. *)
Definition do_multifield_node (self : MultifieldPlugin)
    (rec : group -> group) (n : node) : node :=
  match n with
  | GroupNode g' => GroupNode (rec g')
  | _ =>
      if has_fieldname n && is_unset (node_fieldname n)
      then GroupNode (new_group (mf_group self) (fielded_copies self n))
      else n
  end.

Fixpoint do_multifield (self : MultifieldPlugin) (p : parser) (g : group)
    : group :=
  match g with
  | Group gt ns b f =>
      Group gt (map (do_multifield_node self (do_multifield self p)) ns) b f
  end.

(** A node that can carry a field name carries one. *)
Definition fielded (n : node) : bool :=
  negb (has_fieldname n) || negb (is_unset (node_fieldname n)).

(** The leaves of all levels of the stack, from the base up. *)
Definition stack_leaves (stack : list group) : list node :=
  flat_map leaves stack.

(** * Properties *)

(** ** The modelled node classes against the specification *)

(** A node without the capability is left as it is. *)
Lemma set_boost_without_capability (n : node) (v : float) :
  has_boost n = false -> set_boost n v = n.
Proof. destruct n as [| | | | | | | | | | |[gt ns b f]]; simpl; congruence. Qed.

Lemma set_fieldname_without_capability (name : string) (override : bool)
    (n : node) :
  has_fieldname n = false -> set_fieldname name override n = n.
Proof. destruct n as [| | | | | | | | | | |[gt ns b f]]; simpl; congruence. Qed.

(** Section 8, associativity: ["a ANDNOT b ANDNOT c"] nests to the left,
    while a chain of And is flattened into one group. *)
Example andnot_nests_left (p : parser) (ta tb tc : string) :
  let a := WordNode ta in
  let b := WordNode tb in
  let c := WordNode tc in
  let andnot := Operator InfixOperator " ANDNOT " AndNotGroup true in
  let and_op := Operator InfixOperator " AND " AndGroup true in
  do_operators 3 default_ops p (new_group AndGroup [a; andnot; b; andnot; c])
  = Ok (new_group AndGroup
          [GroupNode
             (new_group AndNotGroup
                [GroupNode (new_group AndNotGroup [a; b]); c])])
  /\ do_operators 2 default_ops p (new_group AndGroup [a; and_op; b; and_op; c])
     = Ok (new_group AndGroup [GroupNode (new_group AndGroup [a; b; c])]).
Proof. split; reflexivity. Qed.

(** Section 8, field propagation: ["title:(hello world)"] gives the field
    to both words. *)
Example field_propagation (p : parser) (self : FieldsPlugin) :
  schema p = None ->
  do_fieldnames 2 self p
    (new_group AndGroup
       [FieldnameNode "title" "title:";
        GroupNode
          (new_group AndGroup [WordNode "hello"; Whitespace; WordNode "world"])])
  = Ok (new_group AndGroup
          [GroupNode
             (Group AndGroup
                [TextNode Word "hello" (mkAttrs (Some "title") 1%float None None);
                 Whitespace;
                 TextNode Word "world" (mkAttrs (Some "title") 1%float None None)]
                1%float (Some "title"))]).
Proof.
  intros Hs. cbn [do_fieldnames]. unfold first_loop. rewrite Hs. reflexivity.
Qed.

(** ** Induction on groups *)

(** Every group among the nodes of a list satisfies [P]. *)
Inductive all_groups (P : group -> Prop) : list node -> Prop :=
| all_groups_nil : all_groups P []
| all_groups_group (g : group) (l : list node) :
    P g -> all_groups P l -> all_groups P (GroupNode g :: l)
| all_groups_other (n : node) (l : list node) :
    is_group n = false -> all_groups P l -> all_groups P (n :: l).

Lemma group_rect_nested (P : group -> Prop) :
  (forall gt ns b f, all_groups P ns -> P (Group gt ns b f)) ->
  forall g, P g.
Proof.
  intros step.
  fix IH 1.
  intros [gt ns b f]. apply step.
  induction ns as [|n ns IHns].
  - constructor.
  - destruct n; try (apply all_groups_other; [reflexivity | exact IHns]).
    apply all_groups_group; [apply IH | exact IHns].
Qed.

Lemma all_groups_app (P : group -> Prop) (l1 l2 : list node) :
  all_groups P (l1 ++ l2) <-> all_groups P l1 /\ all_groups P l2.
Proof.
  induction l1 as [|n l1 IH]; simpl.
  - split; [intros H; split; [constructor | exact H] | intros [_ H]; exact H].
  - split.
    + intros H. inversion H; subst.
      * apply IH in H3 as [H3 H4]. split; [constructor|]; assumption.
      * apply IH in H3 as [H3 H4].
        split; [apply all_groups_other|]; assumption.
    + intros [H H']. inversion H; subst.
      * constructor; [assumption | apply IH; split; assumption].
      * apply all_groups_other; [assumption | apply IH; split; assumption].
Qed.

(** ** Groups as accumulators *)

Lemma extend_nil (g : group) : extend g [] = g.
Proof. destruct g; simpl. now rewrite app_nil_r. Qed.

Lemma extend_extend (g : group) (l1 l2 : list node) :
  extend (extend g l1) l2 = extend g (l1 ++ l2).
Proof. destruct g; simpl. now rewrite app_assoc. Qed.

Lemma append_extend (g : group) (l : list node) (n : node) :
  append (extend g l) n = extend g (l ++ [n]).
Proof. destruct g; simpl. now rewrite app_assoc. Qed.

Lemma append_as_extend (g : group) (n : node) : append g n = extend g [n].
Proof. destruct g; reflexivity. Qed.

Lemma extend_empty_copy (gt : grouptype) (ns l : list node) (b : float)
    (f : option string) :
  extend (empty_copy (Group gt ns b f)) l = Group gt l b f.
Proof. reflexivity. Qed.

Lemma nodes_extend (g : group) (l : list node) :
  nodes (extend g l) = nodes g ++ l.
Proof. destruct g; reflexivity. Qed.

(** ** GtLtPlugin.make_range *)

(** C3: for an operand with text [t], [make_range] yields for ["<"] the
    range (None, t, false, true), for [">"] the range (t, None, true,
    false), for ["<="] and ["=<"] the range (None, t, false, false), and
    for [">="] and ["=>"] the range (t, None, false, false). *)
Theorem make_range_bounds (k : textkind) (t : string) (a : attrs) :
  let n := TextNode k t a in
  make_range n "<" = Ok (range_of n None (Some t) false true) /\
  make_range n ">" = Ok (range_of n (Some t) None true false) /\
  make_range n "<=" = Ok (range_of n None (Some t) false false) /\
  make_range n "=<" = Ok (range_of n None (Some t) false false) /\
  make_range n ">=" = Ok (range_of n (Some t) None false false) /\
  make_range n "=>" = Ok (range_of n (Some t) None false false).
Proof. repeat split. Qed.

(** ** WhitespacePlugin.remove_whitespace *)

Lemma remove_whitespace_fold (rec : group -> group) (ns : list node)
    (acc : group) :
  fold_left (remove_whitespace_step rec) ns acc = extend acc (kept_nodes rec ns).
Proof.
  revert acc. induction ns as [|n ns IH]; intros acc; simpl.
  - now rewrite extend_nil.
  - rewrite IH. destruct n; simpl;
      now rewrite ?append_as_extend, ?extend_extend.
Qed.

Lemma remove_whitespace_eq (p : parser) (gt : grouptype) (ns : list node)
    (b : float) (f : option string) :
  remove_whitespace p (Group gt ns b f)
  = Group gt (kept_nodes (remove_whitespace p) ns) b f.
Proof. simpl. now rewrite remove_whitespace_fold. Qed.

Lemma remove_whitespace_fixes (p : parser) (g : group) :
  ws_free g = true -> remove_whitespace p g = g.
Proof.
  induction g as [gt ns b f IH] using group_rect_nested.
  intros Hfree. rewrite remove_whitespace_eq. f_equal.
  simpl in Hfree. induction IH as [|g l Hg _ IHl|n l Hn _ IHl]; simpl in *.
  - reflexivity.
  - apply andb_prop in Hfree as [H1 H2]. now rewrite Hg, IHl.
  - apply andb_prop in Hfree as [H1 H2]. rewrite IHl by assumption.
    destruct n; simpl in *; try reflexivity; discriminate.
Qed.

Lemma remove_whitespace_twice (p : parser) (g : group) :
  remove_whitespace p (remove_whitespace p g) = remove_whitespace p g.
Proof.
  induction g as [gt ns b f IH] using group_rect_nested.
  rewrite !remove_whitespace_eq. f_equal.
  induction IH as [|g l Hg _ IHl|n l Hn _ IHl]; simpl.
  - reflexivity.
  - now rewrite Hg, IHl.
  - destruct n; simpl in *; try (now rewrite IHl); discriminate.
Qed.

(** C8: [remove_whitespace] returns a tree without whitespace nodes as it
    is, nested groups included, and running it twice gives what running
    it once gives. *)
Theorem remove_whitespace_idempotent (p : parser) (g : group) :
  (ws_free g = true -> remove_whitespace p g = g) /\
  remove_whitespace p (remove_whitespace p g) = remove_whitespace p g.
Proof.
  split; [apply remove_whitespace_fixes | apply remove_whitespace_twice].
Qed.

Lemma remove_whitespace_idempotent_witness :
  ws_free whitespace_free_tree = true /\
  remove_whitespace (mkParser None "content" AndGroup) whitespace_free_tree
  = whitespace_free_tree.
Proof.
  split; [reflexivity |].
  apply (proj1 (remove_whitespace_idempotent
                  (mkParser None "content" AndGroup) whitespace_free_tree)).
  reflexivity.
Defined.

(** ** PlusMinusPlugin.do_plusminus *)

(** The loop fills each of its three groups with the operands that the
    specification assigns to it. *)
Lemma do_plusminus_fold (ns : list node) (st : plusminus_state)
    (prev : option node) :
  next st = bucket_after prev ->
  let st' := fold_left do_plusminus_step ns st in
  required st' = extend (required st) (operands_of Required prev ns) /\
  optional st' = extend (optional st) (operands_of Optional prev ns) /\
  banned st' = extend (banned st) (operands_of Banned prev ns).
Proof.
  revert st prev. induction ns as [|n ns IH]; intros st prev Hnext; simpl.
  - now rewrite !extend_nil.
  - assert (Hn : is_plusminus n = true \/ is_plusminus n = false)
      by (destruct (is_plusminus n); auto).
    destruct Hn as [Hn | Hn].
    + rewrite Hn; simpl.
      destruct n; try discriminate; simpl;
        (match goal with
         | |- context [fold_left _ ns ?s] =>
             specialize (IH s (Some Plus) eq_refl)
             || specialize (IH s (Some Minus) eq_refl)
         end); exact IH.
    + rewrite Hn; simpl.
      assert (Hstep : do_plusminus_step st n
                      = match next st with
                        | Required =>
                            mkPM Optional (append (required st) n)
                              (optional st) (banned st)
                        | Optional =>
                            mkPM Optional (required st)
                              (append (optional st) n) (banned st)
                        | Banned =>
                            mkPM Optional (required st) (optional st)
                              (append (banned st) n)
                        end)
        by (destruct n; try reflexivity; discriminate).
      assert (Hafter : bucket_after (Some n) = Optional)
        by (destruct n; try reflexivity; discriminate).
      rewrite Hstep, <- Hnext.
      destruct (next st); simpl;
        (match goal with
         | |- context [fold_left _ ns ?s] =>
             specialize (IH s (Some n) (eq_sym Hafter))
         end);
        simpl in IH; destruct IH as (H1 & H2 & H3);
        rewrite H1, H2, H3, ?append_as_extend, ?extend_extend; auto.
Qed.

Lemma do_plusminus_buckets (ns : list node) :
  let st := do_plusminus_loop ns in
  required st = new_group AndGroup (operands_of Required None ns) /\
  optional st = new_group OrGroup (operands_of Optional None ns) /\
  banned st = new_group OrGroup (operands_of Banned None ns).
Proof.
  unfold do_plusminus_loop.
  destruct (do_plusminus_fold ns
              (mkPM Optional (new_group AndGroup []) (new_group OrGroup [])
                 (new_group OrGroup [])) None eq_refl) as (H1 & H2 & H3).
  simpl in *. now rewrite H1, H2, H3.
Qed.

(** C5: [do_plusminus] sorts the operands of a flat group into the
    required (And), optional (Or) and banned (Or) groups by the marker in
    force, and returns AndNot(AndMaybe(required, optional), banned) when
    required and banned both have operands, AndMaybe(required, optional)
    when only required has, AndNot(optional, banned) when only banned has,
    and the optional group otherwise; the nodes of ["+a b -c"] give
    AndNot(AndMaybe(And(a), Or(b)), Or(c)). *)
Theorem do_plusminus_shape (p : parser) (g : group) :
  let req := new_group AndGroup (operands_of Required None (nodes g)) in
  let opt := new_group OrGroup (operands_of Optional None (nodes g)) in
  let ban := new_group OrGroup (operands_of Banned None (nodes g)) in
  do_plusminus p g
  = match nonempty req, nonempty ban with
    | true, true =>
        new_group AndNotGroup
          [GroupNode (new_group AndMaybeGroup [GroupNode req; GroupNode opt]);
           GroupNode ban]
    | true, false => new_group AndMaybeGroup [GroupNode req; GroupNode opt]
    | false, true => new_group AndNotGroup [GroupNode opt; GroupNode ban]
    | false, false => opt
    end
  /\ forall (gt : grouptype) (gb : float) (gf : option string)
       (ka kb kc : textkind) (ta tb tc : string) (aa ab ac : attrs),
       let a := TextNode ka ta aa in
       let b := TextNode kb tb ab in
       let c := TextNode kc tc ac in
       do_plusminus p (Group gt [Plus; a; b; Minus; c] gb gf)
       = new_group AndNotGroup
           [GroupNode
              (new_group AndMaybeGroup
                 [GroupNode (new_group AndGroup [a]);
                  GroupNode (new_group OrGroup [b])]);
            GroupNode (new_group OrGroup [c])].
Proof.
  split; [| reflexivity].
  unfold do_plusminus.
  destruct (do_plusminus_buckets (nodes g)) as (H1 & H2 & H3).
  simpl in H1, H2, H3. rewrite H1, H2, H3.
  destruct (nonempty (new_group AndGroup (operands_of Required None (nodes g))));
    destruct (nonempty (new_group OrGroup (operands_of Banned None (nodes g))));
    reflexivity.
Qed.

(** ** GroupPlugin.do_groups *)

Lemma stack_snoc (stack : list group) :
  stack <> [] -> exists below top, stack = below ++ [top].
Proof.
  intros H. destruct (exists_last H) as (below & top & ->). eauto.
Qed.

Lemma stack_pop_snoc (below : list group) (top : group) :
  stack_pop (below ++ [top]) = Ok (below, top).
Proof. unfold stack_pop. now rewrite rev_unit, rev_involutive. Qed.

Lemma stack_top_append_snoc (below : list group) (top : group) (n : node) :
  stack_top_append (below ++ [top]) n = Ok (below ++ [append top n]).
Proof. unfold stack_top_append. now rewrite rev_unit, rev_involutive. Qed.

(** A turn of the loop on a stack that has its base succeeds, keeps the
    base level in place, and changes the height by the bracket it reads. *)
Lemma do_groups_step_ok (p : parser) (stack : list group) (n : node) :
  stack <> [] ->
  exists stack',
    do_groups_step p stack n = Ok stack' /\ stack' <> [] /\
    List.length stack + (if is_open n then 1 else 0)
    <= List.length stack' + (if is_close n then 1 else 0).
Proof.
  intros Hne. destruct (stack_snoc stack Hne) as (below & top & ->).
  assert (Hother : exists stack',
             stack_top_append (below ++ [top]) n = Ok stack' /\ stack' <> [] /\
             List.length (below ++ [top]) <= List.length stack').
  { rewrite stack_top_append_snoc. eexists; split; [reflexivity|].
    split; [now destruct below | rewrite !length_app; simpl; lia]. }
  destruct n; simpl; try (destruct Hother as (s & H1 & H2 & H3);
    exists s; repeat split; [exact H1 | exact H2 | lia]).
  - eexists; split; [reflexivity|]. split.
    + now destruct below.
    + rewrite !length_app; simpl; lia.
  - destruct (1 <? List.length (below ++ [top]))%nat eqn:Hlen.
    + rewrite stack_pop_snoc; simpl.
      apply Nat.ltb_lt in Hlen. rewrite length_app in Hlen; simpl in Hlen.
      assert (Hb : below <> []) by (destruct below; simpl in *; [lia | easy]).
      destruct (stack_snoc below Hb) as (below' & top' & ->).
      rewrite stack_top_append_snoc.
      eexists; split; [reflexivity|]. split.
      * now destruct below'.
      * rewrite !length_app; simpl; lia.
    + eexists; split; [reflexivity|]. split; [exact Hne | lia].
Qed.

Lemma do_groups_loop_ok (p : parser) (ns : list node) (stack : list group) :
  stack <> [] ->
  exists stack',
    do_groups_loop p ns stack = Ok stack' /\ stack' <> [] /\
    List.length stack + count_nodes is_open ns
    <= List.length stack' + count_nodes is_close ns.
Proof.
  revert stack. induction ns as [|n ns IH]; intros stack Hne; simpl.
  - exists stack. repeat split; [exact Hne | unfold count_nodes; simpl; lia].
  - destruct (do_groups_step_ok p stack n Hne) as (s1 & H1 & H2 & H3).
    rewrite H1; simpl.
    destruct (IH s1 H2) as (s2 & H4 & H5 & H6).
    exists s2. repeat split; [exact H4 | exact H5 |].
    unfold count_nodes in *; simpl.
    destruct (is_open n), (is_close n); simpl; lia.
Qed.

Lemma extend_all_flat (top : group) (levels : list group) :
  extend_all top levels = extend top (flat_map nodes levels).
Proof.
  unfold extend_all. revert top.
  induction levels as [|ls levels IH]; intros top; simpl.
  - now rewrite extend_nil.
  - now rewrite IH, extend_extend.
Qed.

(** [do_groups] raises on no input. *)
Lemma do_groups_total (p : parser) (g : group) :
  exists top, do_groups p g = Ok top.
Proof.
  unfold do_groups.
  destruct (do_groups_loop_ok p (nodes g) [new_group (parser_group p) []])
    as (s & H1 & H2 & _); [easy|].
  rewrite H1; simpl. destruct s as [|top levels]; [easy|]. eauto.
Qed.

(** C6: on a sequence with more open than close brackets [do_groups]
    returns without an error: the levels that no bracket closed are left
    on the stack above the base, and their contents are appended to the
    base group in the order of the stack (the outcome is then returned
    through the final unwrapping of a lone group); the nodes of
    ["(a AND b"] give a top-level group that holds a, the operator and b. *)
Theorem do_groups_unbalanced (p : parser) (g : group) :
  (count_nodes is_close (nodes g) < count_nodes is_open (nodes g) ->
   exists base levels,
     do_groups_loop p (nodes g) [new_group (parser_group p) []]
     = Ok (base :: levels) /\
     levels <> [] /\
     do_groups p g = Ok (collapse (extend base (flat_map nodes levels)))) /\
  (forall (gt : grouptype) (gb : float) (gf : option string)
     (ka kb : textkind) (ta tb : string) (aa ab : attrs) (op : string),
     let a := TextNode ka ta aa in
     let b := TextNode kb tb ab in
     let and_op := Operator InfixOperator op AndGroup true in
     do_groups p (Group gt [OpenBracket; a; and_op; b] gb gf)
     = Ok (new_group (parser_group p) [a; and_op; b])).
Proof.
  split; [| reflexivity].
  intros Hcount. unfold do_groups.
  destruct (do_groups_loop_ok p (nodes g) [new_group (parser_group p) []])
    as (s & H1 & H2 & H3); [easy|].
  simpl in H3. destruct s as [|base levels]; [easy|].
  exists base, levels. rewrite H1; simpl.
  assert (Hlev : levels <> []) by (destruct levels; simpl in *; [lia | easy]).
  repeat split; [exact Hlev |].
  destruct levels as [|l levels]; [easy|].
  change (1 <? S (S (List.length levels)))%nat with true; cbv iota.
  now rewrite extend_all_flat.
Qed.

Lemma do_groups_unbalanced_witness :
  exists base levels,
    do_groups_loop (mkParser None "content" AndGroup) (nodes unbalanced_query)
      [new_group AndGroup []]
    = Ok (base :: levels) /\
    levels <> [] /\
    do_groups (mkParser None "content" AndGroup) unbalanced_query
    = Ok (collapse (extend base (flat_map nodes levels))).
Proof.
  apply (proj1 (do_groups_unbalanced (mkParser None "content" AndGroup)
                  unbalanced_query)).
  unfold count_nodes; simpl; lia.
Defined.

(** ** BoostPlugin.do_boost *)

Lemma last_has_boost_snoc (gt : grouptype) (xs : list node) (x : node)
    (b : float) (f : option string) :
  last_has_boost (Group gt (xs ++ [x]) b f) = has_boost x.
Proof.
  unfold last_has_boost, nonempty, last_node; simpl.
  rewrite rev_unit. now destruct xs.
Qed.

Lemma update_last_snoc (h : node -> node) (gt : grouptype) (xs : list node)
    (x : node) (b : float) (f : option string) :
  update_last h (Group gt (xs ++ [x]) b f) = Group gt (xs ++ [h x]) b f.
Proof. unfold update_last. now rewrite rev_unit, rev_involutive. Qed.

(** The loop leaves kind, boost and field of the group it fills alone. *)
Lemma do_boost_fold_frame (rec : group -> group) (l xs : list node)
    (gt : grouptype) (b : float) (f : option string) :
  exists ys,
    fold_left (do_boost_step rec) l (Group gt xs b f) = Group gt ys b f.
Proof.
  revert xs. induction l as [|m l IH]; intros xs; simpl; [eauto|].
  destruct m; simpl; try apply IH.
  destruct (last_has_boost (Group gt xs b f)); [| apply IH].
  unfold update_last. destruct (rev xs); apply IH.
Qed.

Lemma do_boost_gboost (p : parser) (g : group) :
  gboost_of (do_boost p g) = gboost_of g.
Proof.
  destruct g as [gt ns b f]; simpl.
  destruct (do_boost_fold_frame (do_boost p) ns [] gt b f) as (ys & ->).
  reflexivity.
Qed.

(** What the loop does after a node [x] depends on the nodes before [x]
    in no way. *)
Lemma do_boost_fold_last (rec : group -> group) (l xs : list node) (x : node)
    (gt : grouptype) (b : float) (f : option string) :
  fold_left (do_boost_step rec) l (Group gt (xs ++ [x]) b f)
  = Group gt
      (xs ++ nodes (fold_left (do_boost_step rec) l (Group gt [x] b f))) b f.
Proof.
  revert xs x. induction l as [|m l IH]; intros xs x; [reflexivity|].
  assert (Hputs : forall m',
             fold_left (do_boost_step rec) l
               (append (Group gt (xs ++ [x]) b f) m')
             = Group gt
                 (xs ++ nodes (fold_left (do_boost_step rec) l
                                 (append (Group gt [x] b f) m'))) b f).
  { intros m'. unfold append. rewrite (IH (xs ++ [x]) m'), (IH [x] m').
    cbn [nodes]. now rewrite <- app_assoc. }
  destruct m; try apply Hputs.
  cbn [fold_left do_boost_step].
  rewrite last_has_boost_snoc, (last_has_boost_snoc gt [] x).
  destruct (has_boost x); [| apply Hputs].
  rewrite update_last_snoc, (update_last_snoc _ gt [] x). apply IH.
Qed.

Lemma do_boost_step_visits (p : parser) (acc : group) (n : node) :
  has_boost n = true ->
  do_boost_step (do_boost p) acc n = append acc (boost_visited p n).
Proof. destruct n; simpl; intros H; try reflexivity; discriminate. Qed.

Lemma boost_visited_boost (p : parser) (n : node) :
  has_boost (boost_visited p n) = has_boost n /\
  node_boost (boost_visited p n) = node_boost n.
Proof.
  destruct n; simpl; try (split; reflexivity).
  now rewrite do_boost_gboost.
Qed.

Lemma set_boost_multiplies (n : node) (bn v : float) :
  node_boost n = Some bn -> node_boost (set_boost n v) = Some (bn * v)%float.
Proof.
  destruct n as [| | | | | | | | | | |[gt ns b f]]; simpl; intros H;
    try discriminate; now inversion H.
Qed.

(** C2: [do_boost] is registered at priority 700, after the operator
    filter at 600.  When it reads a boost marker with value [v] right
    after a node [n] that has boost capability, the marker is left out of
    the new group and the boost of the node is multiplied by [v]: a node
    that carried boost [bn] then carries [bn * v].  When no further marker
    follows, this is the node that the filter returns at that place. *)
Theorem do_boost_applies (p : parser) (gt : grouptype) (b : float)
    (f : option string) (pre post : list node) (n : node) (original : string)
    (bn v : float) :
  has_boost n = true ->
  node_boost n = Some bn ->
  let before := fold_left (do_boost_step (do_boost p)) pre (Group gt [] b f) in
  let boosted := set_boost (boost_visited p n) v in
  (In (F_do_boost, 700) BoostPlugin_filters /\
   In (F_do_operators, 600) OperatorsPlugin_filters /\ 600 < 700) /\
  do_boost p (Group gt (pre ++ n :: BoostNode original v :: post) b f)
  = fold_left (do_boost_step (do_boost p)) post (append before boosted) /\
  node_boost boosted = Some (bn * v)%float /\
  (no_boost_ahead post = true ->
   nodes (do_boost p (Group gt (pre ++ n :: BoostNode original v :: post) b f))
   = nodes before ++ boosted :: nodes (do_boost p (Group gt post b f))).
Proof.
  intros Hcap Hbn before boosted.
  destruct (boost_visited_boost p n) as [Hcap' Hbn'].
  assert (Hrun :
    do_boost p (Group gt (pre ++ n :: BoostNode original v :: post) b f)
    = fold_left (do_boost_step (do_boost p)) post (append before boosted)).
  { cbn [do_boost empty_copy]. rewrite fold_left_app. cbn [fold_left].
    fold before. rewrite (do_boost_step_visits p before n Hcap).
    destruct (do_boost_fold_frame (do_boost p) pre [] gt b f) as (ys & Hys).
    unfold before in *. rewrite Hys. cbn [append do_boost_step].
    rewrite last_has_boost_snoc, Hcap', Hcap, update_last_snoc.
    reflexivity. }
  split; [simpl; intuition lia|].
  split; [exact Hrun|].
  split; [apply set_boost_multiplies; congruence|].
  intros Hahead. rewrite Hrun.
  destruct (do_boost_fold_frame (do_boost p) pre [] gt b f) as (ys & Hys).
  unfold before in *. rewrite Hys. cbn [append nodes].
  destruct post as [|m post]; [reflexivity|].
  cbn [do_boost empty_copy fold_left].
  assert (Hm : forall acc,
             do_boost_step (do_boost p) acc m = append acc (boost_visited p m))
    by (intros acc; destruct m; try reflexivity; discriminate).
  rewrite !Hm. cbn [append app].
  rewrite (do_boost_fold_last _ post (ys ++ [boosted])). cbn [nodes].
  now rewrite <- app_assoc.
Qed.

Lemma do_boost_applies_witness :
  node_boost
    (set_boost
       (boost_visited (mkParser None "content" AndGroup)
          (TextNode Word "there" (mkAttrs None 1.5%float None None)))
       2%float)
  = Some 3%float.
Proof.
  apply (do_boost_applies (mkParser None "content" AndGroup) AndGroup 1%float
           None [WordNode "hello"] []
           (TextNode Word "there" (mkAttrs None 1.5%float None None)) "^2"
           1.5%float 2%float); reflexivity.
Defined.

(** ** GtLtPlugin.do_gtlt *)

Lemma make_range_no_marker (n r : node) (rel : string) :
  make_range n rel = Ok r -> is_gtlt r = false.
Proof.
  unfold make_range. destruct (node_text n) as [t|]; simpl; [| discriminate].
  destruct (rel =? "<"); simpl; [intros H; now inversion H|].
  destruct (rel =? ">"); simpl; [intros H; now inversion H|].
  destruct ((rel =? "<=") || (rel =? "=<")); simpl; [intros H; now inversion H|].
  destruct ((rel =? ">=") || (rel =? "=>")); simpl; [intros H; now inversion H|].
  discriminate.
Qed.

Lemma existsb_append (h : node -> bool) (g : group) (n : node) :
  existsb h (nodes (append g n)) = existsb h (nodes g) || h n.
Proof. destruct g; simpl. rewrite existsb_app; simpl. now rewrite orb_false_r. Qed.

(** Whenever the loop of [do_gtlt] comes to its end, it has appended no
    comparison marker. *)
Lemma do_gtlt_loop_no_marker (rest : list node) :
  forall acc out,
    do_gtlt_loop rest acc = Ok out ->
    existsb is_gtlt (nodes acc) = false ->
    existsb is_gtlt (nodes out) = false.
Proof.
  induction rest as [rest IH] using (induction_ltof1 _ (@List.length node)).
  unfold ltof in IH.
  intros acc out Hrun Hacc. destruct rest as [|n rest]; simpl in Hrun.
  - now inversion Hrun; subst.
  - assert (Hput : forall m, is_gtlt m = false ->
               do_gtlt_loop rest (append acc m) = Ok out ->
               existsb is_gtlt (nodes out) = false).
    { intros m Hm Hrest. apply (IH rest) with (acc := append acc m);
        [simpl; lia | exact Hrest |].
      now rewrite existsb_append, Hacc, Hm. }
    destruct n;
      try (eapply Hput; [| exact Hrun]; reflexivity).
    destruct rest as [|nextnode rest'].
    + now inversion Hrun; subst.
    + destruct (last_node acc) as [prevnode|]; simpl in Hrun; [| discriminate].
      destruct (is_fieldname_node prevnode && has_text nextnode).
      * destruct (make_range nextnode rel) as [r|] eqn:Hr; simpl in Hrun;
          [| discriminate].
        apply (IH rest') with (acc := append acc r);
          [simpl; lia | exact Hrun |].
        now rewrite existsb_append, Hacc, (make_range_no_marker _ _ _ Hr).
      * apply (IH (nextnode :: rest')) with (acc := acc);
          [simpl; lia | exact Hrun | exact Hacc].
Qed.

(** A marker between a field-name marker and a node with text is fused
    with that node into a range; a marker at the end is dropped. *)
Lemma do_gtlt_fuses (p : parser) (gt : grouptype) (b : float)
    (f : option string) (fname original : string) (k : textkind)
    (t : string) (a : attrs) :
  do_gtlt p (Group gt [FieldnameNode fname original; GtLtNode ">=";
                       TextNode k t a] b f)
  = Ok (Group gt [FieldnameNode fname original;
                  range_of (TextNode k t a) (Some t) None false false] b f)
  /\ do_gtlt p (Group gt [TextNode k t a; GtLtNode ">="] b f)
     = Ok (Group gt [TextNode k t a] b f).
Proof. split; reflexivity. Qed.

(** C9, where the code departs from it: when a comparison marker comes
    first in the group and another node follows, nothing has been put in
    the new group yet, the look at its last node raises [IndexError], and
    [do_gtlt] returns no group; the marker of [">100"] is not dropped
    silently. *)
Theorem do_gtlt_leading_marker_raises (p : parser) (gt : grouptype)
    (b : float) (f : option string) :
  do_gtlt p (Group gt [GtLtNode ">"; WordNode "100"] b f) = Raise IndexError.
Proof. reflexivity. Qed.

(** ** FieldsPlugin.do_fieldnames: unknown fields *)

(** C4, where the code departs from it: of two adjacent markers of
    unknown fields, the text of the second replaces the pending text of
    the first, which is lost.  For ["a:b:x"] and a schema that knows
    neither [a] nor [b], the filter returns the single word ["b:x"]. *)
Theorem do_fieldnames_adjacent_unknown (gt : grouptype) (b : float)
    (f : option string) :
  do_fieldnames 1 (mkFieldsPlugin true) (mkParser (Some ["content"]) "content" AndGroup)
    (Group gt [FieldnameNode "a" "a:"; FieldnameNode "b" "b:"; WordNode "x"]
       b f)
  = Ok (Group gt [WordNode "b:x"] b f).
Proof. reflexivity. Qed.

(** ** FieldsPlugin.do_fieldnames: the two loops *)

Lemma remove_unknown_eq (sch : list string) (g : group) :
  remove_unknown sch g
  = flush (fold_left (unknown_step sch) (nodes g) (empty_copy g, None)).
Proof. reflexivity. Qed.

Lemma empty_copy_extend (g : group) (l : list node) :
  empty_copy (extend g l) = empty_copy g.
Proof. now destruct g. Qed.

Lemma empty_copy_append (g : group) (n : node) :
  empty_copy (append g n) = empty_copy g.
Proof. now destruct g. Qed.

Lemma empty_copy_idem (g : group) : empty_copy (empty_copy g) = empty_copy g.
Proof. now destruct g. Qed.

Lemma extend_of_empty_copy (g : group) : extend (empty_copy g) (nodes g) = g.
Proof. now destruct g. Qed.

(** A turn of the first loop only appends to the new group. *)
Lemma unknown_step_frame (sch : list string) (acc : group)
    (text : option string) (n : node) :
  unknown_step sch (acc, text) n
  = (extend acc (nodes (fst (unknown_step sch (empty_copy acc, text) n))),
     snd (unknown_step sch (empty_copy acc, text) n)).
Proof.
  destruct acc as [gt ns b f]. unfold unknown_step.
  destruct n; cbn [empty_copy];
    repeat match goal with
      | |- context [if ?c then _ else _] => destruct c
      end; simpl; rewrite ?app_nil_r, <- ?app_assoc; reflexivity.
Qed.

Lemma unknown_step_kind (sch : list string) (acc : group)
    (text : option string) (n : node) :
  empty_copy (fst (unknown_step sch (acc, text) n)) = empty_copy acc.
Proof.
  unfold unknown_step.
  destruct n;
    repeat match goal with
      | |- context [if ?c then _ else _] => destruct c
      end; simpl; now rewrite ?empty_copy_append.
Qed.

Lemma unknown_fold_frame (sch : list string) (ns : list node) (acc : group)
    (text : option string) :
  fold_left (unknown_step sch) ns (acc, text)
  = (extend acc
       (nodes (fst (fold_left (unknown_step sch) ns (empty_copy acc, text)))),
     snd (fold_left (unknown_step sch) ns (empty_copy acc, text))).
Proof.
  revert acc text. induction ns as [|n ns IH]; intros acc text.
  - simpl. destruct acc; simpl. now rewrite app_nil_r.
  - cbn [fold_left].
    rewrite (unknown_step_frame sch acc text n).
    assert (Hk : empty_copy (fst (unknown_step sch (empty_copy acc, text) n))
                 = empty_copy acc)
      by now rewrite unknown_step_kind, empty_copy_idem.
    destruct (unknown_step sch (empty_copy acc, text) n) as [g1 t1].
    cbn [fst snd] in *.
    rewrite (IH (extend acc (nodes g1))), empty_copy_extend.
    rewrite (IH g1 t1), Hk. cbn [fst snd].
    rewrite extend_extend, nodes_extend. reflexivity.
Qed.

(** A pending text that counts as false is as good as none. *)
Lemma unknown_fold_falsy (sch : list string) (ns : list node) (acc : group)
    (t1 t2 : option string) :
  truthy t1 = false -> truthy t2 = false ->
  flush (fold_left (unknown_step sch) ns (acc, t1))
  = flush (fold_left (unknown_step sch) ns (acc, t2)).
Proof.
  revert acc t1 t2. induction ns as [|n ns IH]; intros acc t1 t2 H1 H2.
  - simpl. now rewrite H1, H2.
  - cbn [fold_left]. unfold unknown_step at 2 4. rewrite H1, H2.
    destruct n; try (now apply IH).
    destruct (negb (in_schema fname sch)); [reflexivity | now apply IH].
Qed.

Lemma flush_frame (acc : group) (st : group * option string) :
  flush (extend acc (nodes (fst st)), snd st)
  = extend acc (nodes (flush st)).
Proof.
  destruct st as [g t]; simpl. destruct (truthy t); [| reflexivity].
  destruct acc, g; simpl. now rewrite app_assoc.
Qed.

(** From a state without a pending text, the first loop goes on as it
    would on the rest of the group alone. *)
Lemma unknown_fold_restart (sch : list string) (ns : list node)
    (gt : grouptype) (xs : list node) (b : float) (f : option string)
    (text : option string) :
  truthy text = false ->
  flush (fold_left (unknown_step sch) ns (Group gt xs b f, text))
  = Group gt (xs ++ nodes (remove_unknown sch (Group gt ns b f))) b f.
Proof.
  intros Hfalse. rewrite (unknown_fold_falsy sch ns _ text None Hfalse eq_refl).
  rewrite unknown_fold_frame, flush_frame, remove_unknown_eq.
  reflexivity.
Qed.

Lemma bind_assoc {A B C : Type} (r : result A) (k : A -> result B)
    (h : B -> result C) :
  (y <- (x <- r ;; k x) ;; h y) = (x <- r ;; y <- k x ;; h y).
Proof. now destruct r. Qed.

Lemma bind_ok_r {A : Type} (r : result A) : (x <- r ;; Ok x) = r.
Proof. now destruct r. Qed.

Lemma bind_ext {A B : Type} (r : result A) (k h : A -> result B) :
  (forall x, k x = h x) -> (x <- r ;; k x) = (x <- r ;; h x).
Proof. intros H. destruct r; simpl; auto. Qed.

Lemma assign_fields_cons (rec : group -> result group) (n : node)
    (l : list node) (acc : group) :
  assign_fields rec (n :: l) acc
  = (n' <- field_visit rec n ;;
     match consumed n' l with
     | Some (fname, l') =>
         assign_fields rec l' (append acc (set_fieldname fname false n'))
     | None => assign_fields rec l (append acc n')
     end).
Proof.
  cbn [assign_fields]. apply bind_ext. intros n'.
  destruct l as [|m l]; [reflexivity|].
  destruct m; try reflexivity. cbn [consumed].
  now destruct (negb (is_ws n')).
Qed.

Lemma consumed_shorter (n' : node) (l l' : list node) (fname : string) :
  consumed n' l = Some (fname, l') ->
  exists original, l = FieldnameNode fname original :: l'.
Proof.
  destruct l as [|m l]; [discriminate|].
  destruct m; try discriminate. cbn [consumed].
  destruct (negb (is_ws n')); [| discriminate].
  intros H; inversion H; subst. eauto.
Qed.

Lemma consumed_app (n' : node) (m : node) (l1 l2 : list node) :
  consumed n' ((m :: l1) ++ l2)
  = match consumed n' (m :: l1) with
    | Some (fname, l') => Some (fname, l' ++ l2)
    | None => None
    end.
Proof.
  destruct m; try reflexivity. cbn [consumed app].
  now destruct (negb (is_ws n')).
Qed.

(** The second loop only appends to the new group. *)
Lemma assign_fields_frame (rec : group -> result group) (l : list node) :
  forall acc,
    assign_fields rec l acc
    = (r <- assign_fields rec l (empty_copy acc) ;; Ok (extend acc (nodes r))).
Proof.
  induction l as [l IH] using (induction_ltof1 _ (@List.length node)).
  unfold ltof in IH. intros acc. destruct l as [|n l].
  - simpl. destruct acc; simpl. now rewrite app_nil_r.
  - rewrite !assign_fields_cons, bind_assoc. apply bind_ext. intros n'.
    assert (Hgo : forall l' x, List.length l' < List.length (n :: l) ->
              assign_fields rec l' (append acc x)
              = (r <- assign_fields rec l' (append (empty_copy acc) x) ;;
                 Ok (extend acc (nodes r)))).
    { intros l' x Hlen.
      rewrite (IH l' Hlen (append acc x)), empty_copy_append.
      rewrite (IH l' Hlen (append (empty_copy acc) x)), empty_copy_append,
        empty_copy_idem, bind_assoc.
      apply bind_ext. intros r. cbn [bind].
      destruct acc, r; simpl. now rewrite <- !app_assoc. }
    destruct (consumed n' l) as [[fname l']|] eqn:Hc.
    + destruct (consumed_shorter _ _ _ _ Hc) as (o & ->).
      apply Hgo. simpl. lia.
    + apply Hgo. simpl. lia.
Qed.

(** What the second loop does with the nodes that it reads before a node
    that is no field-name marker depends on the rest in no way. *)
Lemma assign_fields_split (rec : group -> result group) (h : node)
    (l2 : list node) :
  is_fieldname_node h = false ->
  forall l1 acc,
    assign_fields rec (l1 ++ h :: l2) acc
    = (acc1 <- assign_fields rec l1 acc ;; assign_fields rec (h :: l2) acc1).
Proof.
  intros Hh l1.
  induction l1 as [l1 IH] using (induction_ltof1 _ (@List.length node)).
  unfold ltof in IH. intros acc. destruct l1 as [|n l1]; [reflexivity|].
  change ((n :: l1) ++ h :: l2) with (n :: (l1 ++ h :: l2)).
  rewrite (assign_fields_cons rec n (l1 ++ h :: l2)),
    (assign_fields_cons rec n l1), bind_assoc.
  apply bind_ext. intros n'.
  destruct l1 as [|m l1].
  - cbn [app]. destruct h; try discriminate; reflexivity.
  - rewrite consumed_app.
    destruct (consumed n' (m :: l1)) as [[fname l']|] eqn:Hc.
    + destruct (consumed_shorter _ _ _ _ Hc) as (o & Heq).
      inversion Heq; subst. apply IH. simpl. lia.
    + apply (IH (m :: l1)). simpl. lia.
Qed.


Lemma assign_fields_kind (rec : group -> result group) (l xs : list node)
    (gt : grouptype) (b : float) (f : option string) (out : group) :
  assign_fields rec l (Group gt xs b f) = Ok out ->
  exists ys, out = Group gt (xs ++ ys) b f.
Proof.
  rewrite assign_fields_frame.
  destruct (assign_fields rec l (empty_copy (Group gt xs b f))) as [r|];
    [| discriminate].
  simpl. intros H; inversion H; subst. eauto.
Qed.

Lemma remove_unknown_kind (sch : list string) (gt : grouptype)
    (ns : list node) (b : float) (f : option string) :
  remove_unknown sch (Group gt ns b f)
  = Group gt (nodes (remove_unknown sch (Group gt ns b f))) b f.
Proof.
  rewrite remove_unknown_eq at 1. cbn [nodes empty_copy].
  now rewrite (unknown_fold_restart sch ns gt [] b f None eq_refl).
Qed.

Lemma first_loop_kind (self : FieldsPlugin) (p : parser) (gt : grouptype)
    (ns : list node) (b : float) (f : option string) :
  first_loop self p (Group gt ns b f)
  = Group gt (nodes (first_loop self p (Group gt ns b f))) b f.
Proof.
  unfold first_loop. destruct (schema p) as [sch|]; [| reflexivity].
  destruct (removeunknown self); [apply remove_unknown_kind | reflexivity].
Qed.

Lemma unknown_step_marker (sch : list string) (g : group)
    (t : option string) (name original : string) :
  unknown_step sch (g, t) (FieldnameNode name original)
  = if negb (in_schema name sch) then (g, Some original)
    else if truthy t
    then (append (append g (WordNode (pending t)))
            (FieldnameNode name original), None)
    else (append g (FieldnameNode name original), t).
Proof. reflexivity. Qed.




Lemma do_fieldnames_S (fuel : nat) (self : FieldsPlugin) (p : parser)
    (g : group) :
  do_fieldnames (S fuel) self p g
  = (newgroup <- assign_fields (do_fieldnames fuel self p)
                   (rev (nodes (first_loop self p g)))
                   (empty_copy (first_loop self p g)) ;;
     Ok (reverse newgroup)).
Proof. reflexivity. Qed.




(** ** Enough fuel *)

Lemma all_groups_rev (P : group -> Prop) (l : list node) :
  all_groups P l -> all_groups P (rev l).
Proof.
  induction 1 as [|g l Hg _ IH|n l Hn _ IH]; simpl.
  - constructor.
  - apply all_groups_app. split; [exact IH|]. repeat constructor. exact Hg.
  - apply all_groups_app. split; [exact IH|].
    apply all_groups_other; [exact Hn | constructor].
Qed.

Lemma all_groups_append (P : group -> Prop) (g : group) (n : node) :
  all_groups P (nodes g) -> is_group n = false ->
  all_groups P (nodes (append g n)).
Proof.
  intros Hg Hn. destruct g; cbn [append nodes] in *.
  apply all_groups_app. split; [exact Hg|].
  apply all_groups_other; [exact Hn | constructor].
Qed.

Lemma depth_bound (gt : grouptype) (ns : list node) (b : float)
    (f : option string) (d : nat) :
  depth (Group gt ns b f) <= S d ->
  all_groups (fun g' => depth g' <= d) ns.
Proof.
  cbn [depth]. intros H. apply le_S_n in H.
  induction ns as [|n ns IH]; [constructor|].
  cbn [fold_right] in H.
  destruct n; try (apply all_groups_other; [reflexivity | apply IH; exact H]).
  apply all_groups_group; [lia | apply IH; lia].
Qed.

(** The first loop passes the groups on as they are. *)
Lemma unknown_fold_groups (P : group -> Prop) (sch : list string)
    (ns : list node) :
  all_groups P ns ->
  forall acc text,
    all_groups P (nodes acc) ->
    all_groups P (nodes (flush (fold_left (unknown_step sch) ns (acc, text)))).
Proof.
  induction 1 as [|g l Hg _ IH|n l Hn _ IH]; intros acc text Hacc.
  - cbn [fold_left flush]. destruct (truthy text); [| exact Hacc].
    now apply all_groups_append.
  - cbn [fold_left]. unfold unknown_step at 2.
    assert (Hput : forall acc', all_groups P (nodes acc') ->
              all_groups P (nodes (append acc' (GroupNode g)))).
    { intros acc' H'. destruct acc'; cbn [append nodes] in *.
      apply all_groups_app. split; [exact H'|]. repeat constructor. exact Hg. }
    destruct (truthy text); cbn [has_text]; apply IH, Hput;
      [now apply all_groups_append | exact Hacc].
  - cbn [fold_left]. unfold unknown_step at 2.
    assert (Hpre : forall t, is_group (prepend_text t n) = false)
      by (intros t; destruct n; try reflexivity; discriminate).
    destruct n; try discriminate;
      repeat match goal with
        | |- context [if ?c then _ else _] => destruct c
        end;
      apply IH; repeat apply all_groups_append; auto.
Qed.

Lemma first_loop_groups (P : group -> Prop) (self : FieldsPlugin) (p : parser)
    (g : group) :
  all_groups P (nodes g) -> all_groups P (nodes (first_loop self p g)).
Proof.
  intros H. unfold first_loop. destruct (schema p) as [sch|]; [| exact H].
  destruct (removeunknown self); [| exact H].
  rewrite remove_unknown_eq. apply unknown_fold_groups; [exact H|].
  destruct g; constructor.
Qed.

Lemma assign_fields_total (P : group -> Prop) (rec : group -> result group) :
  (forall g, P g -> exists g', rec g = Ok g') ->
  forall l acc,
    all_groups P l -> exists out, assign_fields rec l acc = Ok out.
Proof.
  intros Hrec l.
  induction l as [l IH] using (induction_ltof1 _ (@List.length node)).
  unfold ltof in IH. intros acc Hl. destruct l as [|n l]; [simpl; eauto|].
  rewrite assign_fields_cons.
  assert (Hv : exists n', field_visit rec n = Ok n').
  { inversion Hl; subst.
    - destruct (Hrec g H1) as (g' & Hg). simpl. rewrite Hg. simpl. eauto.
    - destruct n; try discriminate; simpl; eauto. }
  destruct Hv as (n' & ->). cbn [bind].
  assert (Hl' : all_groups P l) by (inversion Hl; assumption).
  destruct (consumed n' l) as [[fname l']|] eqn:Hc.
  - destruct (consumed_shorter _ _ _ _ Hc) as (o & ->).
    apply IH; [simpl; lia | inversion Hl'; assumption].
  - apply IH; [simpl; lia | exact Hl'].
Qed.

(** [do_fieldnames] returns a group as soon as its fuel covers the depth
    of the tree. *)
Lemma do_fieldnames_total (self : FieldsPlugin) (p : parser) (fuel : nat) :
  forall g, depth g <= fuel -> exists g', do_fieldnames fuel self p g = Ok g'.
Proof.
  induction fuel as [|fuel IH]; intros [gt ns b f] Hd.
  - simpl in Hd. lia.
  - rewrite do_fieldnames_S.
    destruct (assign_fields_total (fun g' => depth g' <= fuel)
                (do_fieldnames fuel self p) IH
                (rev (nodes (first_loop self p (Group gt ns b f))))
                (empty_copy (first_loop self p (Group gt ns b f))))
      as (out & ->).
    + apply all_groups_rev, first_loop_groups. cbn [nodes].
      now apply depth_bound in Hd.
    + simpl. eauto.
Qed.

(** ** FieldsPlugin.do_fieldnames: field names that are already set *)

Lemma subseq_refl {A : Type} (l : list A) : subseq l l.
Proof. induction l; constructor; assumption. Qed.

Lemma subseq_nil_l {A : Type} (l : list A) : subseq [] l.
Proof. induction l; constructor; assumption. Qed.

Lemma subseq_app {A : Type} (l1 l2 k1 k2 : list A) :
  subseq l1 l2 -> subseq k1 k2 -> subseq (l1 ++ k1) (l2 ++ k2).
Proof. intros H. induction H; simpl; intros Hk; auto using @subseq. Qed.

Lemma subseq_trans {A : Type} (l1 l2 l3 : list A) :
  subseq l1 l2 -> subseq l2 l3 -> subseq l1 l3.
Proof.
  intros H12 H23. revert l1 H12.
  induction H23 as [|x l2 l3 H IH|x l2 l3 H IH]; intros l1 H12.
  - exact H12.
  - inversion H12; subst; constructor; auto.
  - constructor; auto.
Qed.

Lemma assign_field_keeps (old : option string) (name : string) :
  subseq (set_name old) (set_name (assign_field old name false)).
Proof. destruct old; simpl; repeat constructor. Qed.

(** Without the right to override, [set_fieldname] changes no field name
    that is set, at any depth. *)
Lemma set_fieldname_keeps (name : string) (n : node) :
  subseq (fieldnames_set n) (fieldnames_set (set_fieldname name false n)).
Proof.
  assert (Hgroups : forall g,
            subseq (fieldnames_set (GroupNode g))
              (fieldnames_set (set_fieldname name false (GroupNode g)))).
  { induction g as [gt ns b f IH] using group_rect_nested.
    cbn [set_fieldname fieldnames_set].
    apply subseq_app; [apply assign_field_keeps|].
    induction IH as [|g l Hg _ IHl|m l Hm _ IHl]; cbn [flat_map map].
    - constructor.
    - apply subseq_app; assumption.
    - apply subseq_app; [| assumption].
      destruct m; try discriminate; simpl;
        try apply assign_field_keeps; constructor. }
  destruct n; try apply Hgroups; simpl;
    try apply assign_field_keeps; constructor.
Qed.

Lemma set_fieldname_keeps_own (name : string) (n : node) (fld : string) :
  node_fieldname n = Some fld ->
  node_fieldname (set_fieldname name false n) = Some fld.
Proof.
  destruct n as [| | | | | | | | | | |[gt ns b f]]; simpl;
    try discriminate; intros ->; reflexivity.
Qed.

Lemma fieldnames_of_app (l1 l2 : list node) :
  fieldnames_of (l1 ++ l2) = fieldnames_of l1 ++ fieldnames_of l2.
Proof. apply flat_map_app. Qed.

Lemma fieldnames_of_append (g : group) (n : node) :
  fieldnames_of (nodes (append g n))
  = fieldnames_of (nodes g) ++ fieldnames_set n.
Proof.
  destruct g; cbn [append nodes]. rewrite fieldnames_of_app. simpl.
  now rewrite app_nil_r.
Qed.

Lemma fieldnames_prepend_text (t : string) (n : node) :
  fieldnames_set (prepend_text t n) = fieldnames_set n.
Proof. now destruct n. Qed.

(** The first loop sets and clears no field name: it drops markers, adds
    plain words and changes texts. *)
Lemma unknown_fold_fieldnames (sch : list string) (ns : list node) :
  forall acc text,
    fieldnames_of (nodes (flush (fold_left (unknown_step sch) ns (acc, text))))
    = fieldnames_of (nodes acc) ++ fieldnames_of ns.
Proof.
  induction ns as [|n ns IH]; intros acc text.
  - cbn [fold_left flush fieldnames_of flat_map].
    destruct (truthy text); rewrite ?fieldnames_of_append; simpl;
      now rewrite ?app_nil_r.
  - cbn [fold_left]. unfold unknown_step at 2.
    assert (Hcons : fieldnames_of (n :: ns)
                    = fieldnames_set n ++ fieldnames_of ns) by reflexivity.
    destruct n;
      repeat match goal with
        | |- context [if ?c then _ else _] => destruct c
        end;
      rewrite IH, ?fieldnames_of_append, ?fieldnames_of_append, Hcons;
      simpl; rewrite ?app_nil_r, <- ?app_assoc; reflexivity.
Qed.

Lemma first_loop_fieldnames (self : FieldsPlugin) (p : parser) (g : group) :
  fieldnames_of (nodes (first_loop self p g)) = fieldnames_of (nodes g).
Proof.
  unfold first_loop. destruct (schema p) as [sch|]; [| reflexivity].
  destruct (removeunknown self); [| reflexivity].
  rewrite remove_unknown_eq, unknown_fold_fieldnames.
  now destruct g.
Qed.

Lemma field_visit_keeps (rec : group -> result group) (n n' : node) :
  (forall g g', rec g = Ok g' ->
     subseq (fieldnames_set (GroupNode g)) (fieldnames_set (GroupNode g'))) ->
  field_visit rec n = Ok n' ->
  subseq (fieldnames_set n) (fieldnames_set n').
Proof.
  intros Hrec. destruct n; simpl; intros H;
    try (inversion H; subst; apply subseq_refl).
  destruct (rec g) as [g''|] eqn:Hg; [| discriminate].
  simpl in H. inversion H; subst. now apply Hrec.
Qed.

(** The second loop keeps every field name that is set on the nodes it
    reads; it adds those that the markers give. *)
Lemma assign_fields_keeps (rec : group -> result group) :
  (forall g g', rec g = Ok g' ->
     subseq (fieldnames_set (GroupNode g)) (fieldnames_set (GroupNode g'))) ->
  forall l acc out,
    assign_fields rec l acc = Ok out ->
    exists ys,
      nodes out = nodes acc ++ ys /\
      subseq (fieldnames_of (rev l)) (fieldnames_of (rev ys)).
Proof.
  intros Hrec l.
  induction l as [l IH] using (induction_ltof1 _ (@List.length node)).
  unfold ltof in IH. intros acc out Hrun. destruct l as [|n l].
  - inversion Hrun; subst. exists []. rewrite app_nil_r. split; [reflexivity|].
    constructor.
  - rewrite assign_fields_cons in Hrun.
    destruct (field_visit rec n) as [n'|] eqn:Hv; [| discriminate].
    cbn [bind] in Hrun.
    pose proof (field_visit_keeps rec n n' Hrec Hv) as Hn.
    destruct (consumed n' l) as [[fname l']|] eqn:Hc.
    + destruct (consumed_shorter _ _ _ _ Hc) as (o & ->).
      apply IH in Hrun as (ys & Hout & Hsub); [| simpl; lia].
      exists (set_fieldname fname false n' :: ys). split.
      * rewrite Hout. destruct acc; simpl. now rewrite <- app_assoc.
      * cbn [rev]. rewrite !fieldnames_of_app. simpl. rewrite !app_nil_r.
        apply subseq_app; [exact Hsub|].
        eapply subseq_trans; [exact Hn | apply set_fieldname_keeps].
    + apply IH in Hrun as (ys & Hout & Hsub); [| simpl; lia].
      exists (n' :: ys). split.
      * rewrite Hout. destruct acc; simpl. now rewrite <- app_assoc.
      * cbn [rev]. rewrite !fieldnames_of_app. simpl. rewrite !app_nil_r.
        apply subseq_app; assumption.
Qed.

Lemma do_fieldnames_keeps (fuel : nat) (self : FieldsPlugin) (p : parser) :
  forall g g',
    do_fieldnames fuel self p g = Ok g' ->
    subseq (fieldnames_set (GroupNode g)) (fieldnames_set (GroupNode g')).
Proof.
  induction fuel as [|fuel IH]; intros g g' Hrun; [discriminate|].
  rewrite do_fieldnames_S in Hrun.
  pose proof (first_loop_fieldnames self p g) as Hfirst.
  destruct g as [gt ns b f]. rewrite first_loop_kind in Hrun.
  cbn [nodes empty_copy] in Hrun, Hfirst.
  set (Y := nodes (first_loop self p (Group gt ns b f))) in *.
  destruct (assign_fields (do_fieldnames fuel self p) (rev Y) (Group gt [] b f))
    as [newgroup|] eqn:Hloop; [| discriminate].
  cbn [bind] in Hrun. inversion Hrun; subst g'.
  destruct (assign_fields_kind _ _ _ _ _ _ _ Hloop) as (ys & ->).
  apply (assign_fields_keeps _ IH) in Hloop as (ys' & Hout & Hsub).
  cbn [nodes app] in Hout. subst ys'. rewrite rev_involutive in Hsub.
  cbn [reverse fieldnames_set app].
  apply subseq_app; [apply subseq_refl|].
  fold (fieldnames_of ns). fold (fieldnames_of (rev ys)).
  now rewrite <- Hfirst.
Qed.

(** C7: [do_fieldnames] overrides no field name that is set.  With fuel
    for the depth of the tree it returns a tree; the field names set in
    the tree before the filter runs are, in their order, field names of
    the tree it returns; assigning a marker's name leaves
    a node's own set field name as it is; and a text node with a set
    field name that comes right after a marker is returned with its
    attributes unchanged, while the marker is consumed. *)
Theorem do_fieldnames_keeps_fieldname (fuel : nat) (self : FieldsPlugin)
    (p : parser) (g : group) :
  (depth g <= fuel -> exists g', do_fieldnames fuel self p g = Ok g') /\
  (forall g',
     do_fieldnames fuel self p g = Ok g' ->
     subseq (fieldnames_set (GroupNode g)) (fieldnames_set (GroupNode g'))) /\
  (forall (name : string) (n : node) (fld : string),
     node_fieldname n = Some fld ->
     node_fieldname (set_fieldname name false n) = Some fld) /\
  (forall (gt : grouptype) (b : float) (f : option string)
     (name original : string) (k : textkind) (t : string) (a : attrs)
     (fld : string),
     fieldname a = Some fld ->
     exists t',
       do_fieldnames (S fuel) self p
         (Group gt [FieldnameNode name original; TextNode k t a] b f)
       = Ok (Group gt [TextNode k t' a] b f)).
Proof.
  split; [apply do_fieldnames_total|].
  split; [apply do_fieldnames_keeps|].
  split; [intros name n fld; apply set_fieldname_keeps_own|].
  intros gt b f name original k t [af ab asc aec] fld Hfld.
  simpl in Hfld. subst af.
  rewrite do_fieldnames_S. unfold first_loop.
  destruct (schema p) as [sch|]; [destruct (removeunknown self)|];
    try (exists t; reflexivity).
  rewrite remove_unknown_eq. cbn [nodes empty_copy fold_left].
  rewrite unknown_step_marker.
  destruct (negb (in_schema name sch)); [| exists t; reflexivity].
  unfold unknown_step. destruct (truthy (Some original)) eqn:Ht.
  - exists (original ++ t)%string. reflexivity.
  - exists t. unfold flush. rewrite Ht. reflexivity.
Qed.

Lemma do_fieldnames_keeps_fieldname_witness :
  subseq (fieldnames_set (GroupNode fielded_query))
    (fieldnames_set
       (GroupNode
          (Group AndGroup
             [TextNode Word "x" (mkAttrs (Some "body") 1%float None None)]
             1%float None))).
Proof.
  apply (proj1 (proj2 (do_fieldnames_keeps_fieldname 1 (mkFieldsPlugin false)
                         (mkParser None "content" AndGroup) fielded_query))).
  reflexivity.
Defined.

(** ** OperatorsPlugin.do_operators *)

(** The kinds are resolved one after the other, in the order of the list:
    all operators of an earlier kind are dealt with before any of a later
    kind is looked at. *)
Lemma resolve_all_app (ops1 ops2 : list (OpTagger * Z)) (group : list node) :
  resolve_all (ops1 ++ ops2) group
  = (group' <- resolve_all ops1 group ;; resolve_all ops2 group').
Proof.
  revert group. induction ops1 as [|[tagger pr] ops1 IH]; intros group.
  - reflexivity.
  - cbn [app resolve_all]. rewrite bind_assoc. apply bind_ext. intros g'.
    apply IH.
Qed.

(** *** The bound on the turns of the two loops is never reached *)

Lemma Forall_firstn_skipn {A : Type} (P : A -> Prop) (n : nat) (l : list A) :
  Forall P l -> Forall P (firstn n l) /\ Forall P (skipn n l).
Proof.
  intros H. rewrite <- (firstn_skipn n l) in H. now apply Forall_app in H.
Qed.

Lemma infix_group_is_group (gt : grouptype) (la : bool) (l r : node) :
  exists g, infix_group gt la l r = GroupNode g.
Proof.
  unfold infix_group. destruct (if la then l else r); eauto.
  destruct g as [gt' ns b f].
  destruct (merging gt && grouptype_eqb gt' gt); eauto.
Qed.

(** [replace_self] on an operator either leaves the group alone and moves
    the index on, or puts one group in the place of two or three nodes. *)
Lemma replace_self_turn (la : bool) (t : node) (group : list node) (i : nat) :
  Forall (assoc_is la) group ->
  nth_error group i = Some t ->
  is_operator t = true ->
  Forall (assoc_is la) (fst (replace_self t group i)) /\
  ((replace_self t group i = (group, if la then S i else i)) \/
   (snd (replace_self t group i) = i /\
    S i < List.length group /\
    S (List.length (fst (replace_self t group i))) <= List.length group /\
    List.length group <= List.length (fst (replace_self t group i)) + 2)).
Proof.
  intros Hall Hnth Hop.
  assert (Hla : assoc_is la t).
  { apply nth_error_In in Hnth. rewrite Forall_forall in Hall. auto. }
  assert (Hi : i < List.length group) by (apply nth_error_Some; congruence).
  assert (Hput : forall before g,
             before <= i -> S i < List.length group ->
             let group' := firstn before group ++ GroupNode g
                             :: skipn (i + 2) group in
             Forall (assoc_is la) group' /\
             S (before + (List.length group - (i + 2))) = List.length group').
  { intros before g Hb Hlen group'. split.
    - apply Forall_app. split; [apply Forall_firstn_skipn, Hall|].
      constructor; [exact I | apply Forall_firstn_skipn, Hall].
    - unfold group'. rewrite length_app, length_firstn. cbn [List.length].
      rewrite length_skipn. lia. }
  destruct t as [| | | | | | | | | |o text gt la'|]; try discriminate.
  simpl in Hla. subst la'. destruct o; cbn [replace_self].
  - destruct (nth_error group (S i)) as [x|] eqn:Hx;
      [| split; [exact Hall | now left]].
    destruct (is_operator x); [split; [exact Hall | now left]|].
    assert (Hlen : S i < List.length group)
      by (apply nth_error_Some; congruence).
    destruct (Hput i (new_group gt [x]) (le_n i) Hlen) as [H1 H2].
    cbn [fst snd]. split; [exact H1|]. right. lia.
  - destruct i as [|before]; [split; [exact Hall | now left]|].
    destruct (nth_error group before) as [l|];
      [| split; [exact Hall | now left]].
    destruct (nth_error group (S (S before))) as [r|] eqn:Hr;
      [| split; [exact Hall | now left]].
    destruct (is_operator l || is_operator r);
      [split; [exact Hall | now left]|].
    assert (Hlen : S (S before) < List.length group)
      by (apply nth_error_Some; congruence).
    destruct (infix_group_is_group gt la l r) as (g & ->).
    destruct (Hput before g (Nat.le_succ_diag_r before) Hlen) as [H1 H2].
    cbn [fst snd]. split; [exact H1|]. right. lia.
Qed.

Lemma scan_left_total (tagger : OpTagger) (fuel : nat) :
  forall group i,
    Forall (assoc_is true) group ->
    List.length group - i <= fuel ->
    exists group',
      scan_left fuel tagger group i = Ok group' /\
      Forall (assoc_is true) group'.
Proof.
  induction fuel as [|fuel IH]; intros group i Hall Hfuel.
  - simpl. destruct (i <? List.length group)%nat eqn:Hlt; [| eauto].
    apply Nat.ltb_lt in Hlt. lia.
  - cbn [scan_left]. destruct (i <? List.length group)%nat eqn:Hlt; [| eauto].
    apply Nat.ltb_lt in Hlt.
    destruct (nth_error group i) as [t|] eqn:Hnth;
      [| apply nth_error_None in Hnth; lia].
    destruct (is_optype (tg_optype tagger) t
              && has_grouptype (tg_grouptype tagger) t) eqn:Hm;
      [| apply IH; [exact Hall | lia]].
    assert (Hop : is_operator t = true).
    { apply andb_prop in Hm as [Hm _]. destruct t; try discriminate.
      reflexivity. }
    destruct (replace_self_turn true t group i Hall Hnth Hop) as [H1 H2].
    destruct (replace_self t group i) as [group' i'].
    cbn [fst snd] in *. destruct H2 as [H2 | (-> & H3 & H4 & H5)].
    + inversion H2; subst. apply IH; [exact Hall | lia].
    + apply IH; [exact H1 | lia].
Qed.

Lemma scan_right_total (tagger : OpTagger) (fuel : nat) :
  forall group i,
    Forall (assoc_is false) group ->
    (i < Z.of_nat (List.length group))%Z ->
    (i + 1 <= Z.of_nat fuel)%Z ->
    exists group',
      scan_right fuel tagger group i = Ok group' /\
      Forall (assoc_is false) group'.
Proof.
  induction fuel as [|fuel IH]; intros group i Hall Hi Hfuel.
  - simpl. destruct (0 <=? i)%Z eqn:Hle; [| eauto].
    apply Z.leb_le in Hle. lia.
  - cbn [scan_right]. destruct (0 <=? i)%Z eqn:Hle; [| eauto].
    apply Z.leb_le in Hle.
    destruct (nth_error group (Z.to_nat i)) as [t|] eqn:Hnth;
      [| apply nth_error_None in Hnth; lia].
    destruct (is_optype (tg_optype tagger) t) eqn:Hm;
      [| apply IH; [exact Hall | lia | lia]].
    assert (Hop : is_operator t = true)
      by (destruct t; try discriminate; reflexivity).
    destruct (replace_self_turn false t group (Z.to_nat i) Hall Hnth Hop)
      as [H1 H2].
    destruct (replace_self t group (Z.to_nat i)) as [group' i'].
    cbn [fst snd] in *. destruct H2 as [H2 | (-> & H3 & H4 & H5)].
    + inversion H2; subst. apply IH; [exact Hall | lia | lia].
    + apply IH; [exact H1 | lia | lia].
Qed.

(** On a group whose operator markers carry the associativity of the
    taggers, every kind is resolved: no loop runs out of its bound and no
    index leaves the group. *)
Lemma resolve_all_total (la : bool) (ops : list (OpTagger * Z)) :
  Forall (fun o => tg_leftassoc (fst o) = la) ops ->
  forall group,
    Forall (assoc_is la) group ->
    exists group',
      resolve_all ops group = Ok group' /\ Forall (assoc_is la) group'.
Proof.
  induction 1 as [|[tagger pr] ops Hla _ IH]; intros group Hall;
    [simpl; eauto|].
  cbn [resolve_all fst] in *. unfold resolve. rewrite Hla.
  assert (Hone : exists group1,
             (if la
              then scan_left (S (List.length group)) tagger group 0
              else scan_right (S (List.length group)) tagger group
                     (Z.of_nat (List.length group) - 1)%Z) = Ok group1 /\
             Forall (assoc_is la) group1).
  { destruct la.
    - apply scan_left_total; [exact Hall | lia].
    - apply scan_right_total; [exact Hall | lia | lia]. }
  destruct Hone as (group1 & -> & H1). cbn [bind]. now apply IH.
Qed.

(** C1: with the default arguments the plugin registers Not, And, Or,
    AndNot, AndMaybe and Require in this order, [do_operators] resolves
    the kinds in the order of registration, each kind over the whole group
    before the next, and so an operator registered earlier binds tighter:
    the group of ["a OR b AND c"] comes back holding Or(a, And(b, c)), as
    the group of ["a AND b OR c"] comes back holding Or(And(a, b), c). *)
Theorem do_operators_precedence (p : parser) :
  map tagger_kind default_ops
  = [(PrefixOperator, NotGroup, true); (InfixOperator, AndGroup, true);
     (InfixOperator, OrGroup, true); (InfixOperator, AndNotGroup, true);
     (InfixOperator, AndMaybeGroup, true); (InfixOperator, RequireGroup, true)]
  /\ (forall (ops1 ops2 : list (OpTagger * Z)) (group : list node),
        resolve_all (ops1 ++ ops2) group
        = (group' <- resolve_all ops1 group ;; resolve_all ops2 group'))
  /\ forall (fuel : nat) (gt : grouptype) (gb : float) (gf : option string)
       (ka kb kc : textkind) (ta tb tc : string) (aa ab ac : attrs)
       (or_text and_text : string),
       let a := TextNode ka ta aa in
       let b := TextNode kb tb ab in
       let c := TextNode kc tc ac in
       let or_op := Operator InfixOperator or_text OrGroup true in
       let and_op := Operator InfixOperator and_text AndGroup true in
       do_operators (3 + fuel) default_ops p
         (Group gt [a; or_op; b; and_op; c] gb gf)
       = Ok (Group gt
               [GroupNode
                  (new_group OrGroup
                     [a; GroupNode (new_group AndGroup [b; c])])]
               gb gf)
       /\ do_operators (3 + fuel) default_ops p
            (Group gt [a; and_op; b; or_op; c] gb gf)
          = Ok (Group gt
                  [GroupNode
                     (new_group OrGroup
                        [GroupNode (new_group AndGroup [a; b]); c])]
                  gb gf).
Proof.
  split; [reflexivity|]. split; [apply resolve_all_app|].
  intros. split; reflexivity.
Qed.

(** * Further properties of the filters *)

Lemma every_leaf_eq (ok : node -> bool) (gt : grouptype) (ns : list node)
    (b : float) (f : option string) :
  every_leaf ok (Group gt ns b f) = forallb (leaf_ok ok) ns.
Proof. reflexivity. Qed.

Lemma leaf_ok_group (ok : node -> bool) (g : group) :
  leaf_ok ok (GroupNode g) = every_leaf ok g.
Proof. reflexivity. Qed.

Lemma leaf_ok_other (ok : node -> bool) (n : node) :
  is_group n = false -> leaf_ok ok n = ok n.
Proof. destruct n; try reflexivity; discriminate. Qed.

(** ** WhitespacePlugin.remove_whitespace, further *)

(** X1: whatever the tree, [remove_whitespace] returns one without any
    whitespace node, at any depth. *)
Theorem remove_whitespace_removes_all (p : parser) (g : group) :
  ws_free (remove_whitespace p g) = true.
Proof.
  induction g as [gt ns b f IH] using group_rect_nested.
  rewrite remove_whitespace_eq. cbn [ws_free].
  induction IH as [|g l Hg _ IHl|n l Hn _ IHl]; simpl.
  - reflexivity.
  - now rewrite Hg, IHl.
  - destruct n; try discriminate; simpl; exact IHl.
Qed.

(** ** BoostPlugin.do_boost, further *)

Lemma set_boost_no_marker (n : node) (v : float) :
  leaf_ok no_boost_marker n = true ->
  leaf_ok no_boost_marker (set_boost n v) = true.
Proof.
  destruct n as [| | | | | | | | | | |[gt ns b f]]; simpl; auto.
Qed.

Lemma forallb_snoc {A : Type} (h : A -> bool) (l : list A) (x : A) :
  forallb h (l ++ [x]) = forallb h l && h x.
Proof. rewrite forallb_app. simpl. now rewrite andb_true_r. Qed.

(** One turn of the loop of [do_boost] puts no marker into the new
    group. *)
Lemma do_boost_step_no_marker (rec : group -> group) (acc : group) (n : node) :
  (forall g', n = GroupNode g' -> every_leaf no_boost_marker (rec g') = true) ->
  forallb (leaf_ok no_boost_marker) (nodes acc) = true ->
  forallb (leaf_ok no_boost_marker) (nodes (do_boost_step rec acc n)) = true.
Proof.
  intros Hrec Hacc. destruct acc as [gt xs b f]. cbn [nodes] in Hacc.
  assert (Hput : forall m, leaf_ok no_boost_marker m = true ->
             forallb (leaf_ok no_boost_marker)
               (nodes (append (Group gt xs b f) m)) = true).
  { intros m Hm. cbn [append nodes]. now rewrite forallb_snoc, Hacc, Hm. }
  destruct n; cbn [do_boost_step]; try (apply Hput; reflexivity).
  - destruct (last_has_boost (Group gt xs b f)); [| apply Hput; reflexivity].
    unfold update_last. destruct (rev xs) as [|m r] eqn:Hrev; [exact Hacc|].
    apply (f_equal (@rev node)) in Hrev. rewrite rev_involutive in Hrev.
    cbn [rev] in Hrev. subst xs. cbn [nodes].
    rewrite forallb_snoc in *. apply andb_prop in Hacc as [H1 H2].
    now rewrite H1, set_boost_no_marker.
  - apply Hput. rewrite leaf_ok_group. now apply Hrec.
Qed.

Lemma do_boost_no_marker (p : parser) (g : group) :
  every_leaf no_boost_marker (do_boost p g) = true.
Proof.
  induction g as [gt ns b f IH] using group_rect_nested.
  cbn [do_boost empty_copy].
  assert (Hfold : forall acc,
             forallb (leaf_ok no_boost_marker) (nodes acc) = true ->
             forallb (leaf_ok no_boost_marker)
               (nodes (fold_left (do_boost_step (do_boost p)) ns acc)) = true).
  { induction IH as [|g l Hg _ IHl|n l Hn _ IHl]; intros acc Hacc;
      cbn [fold_left]; [exact Hacc | |].
    - apply IHl, do_boost_step_no_marker; [| exact Hacc].
      intros g' Hg'. inversion Hg'; subst. exact Hg.
    - apply IHl, do_boost_step_no_marker; [| exact Hacc].
      intros g' Hg'. subst n. discriminate. }
  specialize (Hfold (Group gt [] b f) eq_refl).
  destruct (do_boost_fold_frame (do_boost p) ns [] gt b f) as (ys & Hys).
  rewrite Hys in *. exact Hfold.
Qed.


Lemma do_boost_marker_free (p : parser) (g : group) :
  every_leaf no_boost_marker g = true -> do_boost p g = g.
Proof.
  induction g as [gt ns b f IH] using group_rect_nested.
  rewrite every_leaf_eq. intros Hfree. cbn [do_boost empty_copy].
  assert (Hfold : forall xs,
             fold_left (do_boost_step (do_boost p)) ns (Group gt xs b f)
             = Group gt (xs ++ ns) b f).
  { induction IH as [|g l Hg _ IHl|n l Hn _ IHl]; intros xs;
      cbn [fold_left forallb] in *.
    - now rewrite app_nil_r.
    - apply andb_prop in Hfree as [H1 H2]. rewrite leaf_ok_group in H1.
      cbn [do_boost_step append]. rewrite (Hg H1), (IHl H2), <- app_assoc.
      reflexivity.
    - apply andb_prop in Hfree as [H1 H2].
      destruct n; try discriminate; cbn [do_boost_step append];
        rewrite (IHl H2), <- app_assoc; reflexivity. }
  apply Hfold.
Qed.

(** X3: on a tree without boost markers [do_boost] changes nothing, and
    so running it twice gives what running it once gives. *)
Theorem do_boost_idempotent (p : parser) (g : group) :
  (every_leaf no_boost_marker g = true -> do_boost p g = g) /\
  do_boost p (do_boost p g) = do_boost p g.
Proof.
  split; [apply do_boost_marker_free|].
  apply do_boost_marker_free, do_boost_no_marker.
Qed.

Lemma do_boost_idempotent_witness :
  do_boost (mkParser None "content" AndGroup) whitespace_free_tree
  = whitespace_free_tree.
Proof.
  apply (proj1 (do_boost_idempotent (mkParser None "content" AndGroup)
                  whitespace_free_tree)).
  reflexivity.
Defined.

(** X4: a boost marker that has no node with boost capability before it
    (it comes first in its group, or after a node such as whitespace) is
    turned into a word that carries the marker's original text. *)
Theorem do_boost_demotes (p : parser) (gt : grouptype) (b : float)
    (f : option string) (pre post : list node) (n : node) (original : string)
    (v : float) :
  has_boost n = false ->
  is_boost_marker n = false ->
  let before := fold_left (do_boost_step (do_boost p)) pre (Group gt [] b f) in
  do_boost p (Group gt (BoostNode original v :: post) b f)
  = fold_left (do_boost_step (do_boost p)) post
      (Group gt [WordNode original] b f) /\
  do_boost p (Group gt (pre ++ n :: BoostNode original v :: post) b f)
  = fold_left (do_boost_step (do_boost p)) post
      (append (append before n) (WordNode original)).
Proof.
  intros Hcap Hmark before. split; [reflexivity|].
  cbn [do_boost empty_copy]. rewrite fold_left_app. cbn [fold_left].
  fold before.
  destruct (do_boost_fold_frame (do_boost p) pre [] gt b f) as (ys & Hys).
  unfold before in *. rewrite Hys.
  assert (Hn : do_boost_step (do_boost p) (Group gt ys b f) n
               = append (Group gt ys b f) n)
    by (destruct n; try reflexivity; discriminate).
  rewrite Hn. cbn [append do_boost_step].
  now rewrite last_has_boost_snoc, Hcap.
Qed.

Lemma do_boost_demotes_witness :
  do_boost (mkParser None "content" AndGroup)
    (Group AndGroup [WordNode "a"; Whitespace; BoostNode "^2" 2%float] 1%float
       None)
  = Group AndGroup [WordNode "a"; Whitespace; WordNode "^2"] 1%float None.
Proof.
  apply (do_boost_demotes (mkParser None "content" AndGroup) AndGroup 1%float
           None [WordNode "a"] [] Whitespace "^2" 2%float); reflexivity.
Defined.

(** ** BoostPlugin.clean_boost *)

Lemma clean_boost_fold (l : list node) :
  forall (gt : grouptype) (xs : list node) (b : float) (f : option string)
    (prev : option node),
    (match prev with
     | Some m => exists xs', xs = xs' ++ [m]
     | None => xs = []
     end) ->
    exists ys,
      fold_left clean_boost_step l (Group gt xs b f) = Group gt (xs ++ ys) b f /\
      Forall2 kept_or_demoted l ys /\
      boosts_apply prev ys = true.
Proof.
  induction l as [|n l IH]; intros gt xs b f prev Hprev.
  - exists []. rewrite app_nil_r. repeat split. constructor.
  - cbn [fold_left].
    assert (Hlast : last_has_boost (Group gt xs b f)
                    = match prev with Some m => has_boost m | None => false end).
    { destruct prev as [m|].
      - destruct Hprev as (xs' & ->). apply last_has_boost_snoc.
      - subst xs. reflexivity. }
    assert (Hgo : forall m, kept_or_demoted n m ->
              (is_boost_marker m = true ->
               match prev with Some m0 => has_boost m0 | None => false end
               = true) ->
              clean_boost_step (Group gt xs b f) n
              = append (Group gt xs b f) m ->
              exists ys,
                fold_left clean_boost_step l
                  (clean_boost_step (Group gt xs b f) n)
                = Group gt (xs ++ ys) b f /\
                Forall2 kept_or_demoted (n :: l) ys /\
                boosts_apply prev ys = true).
    { intros m Hm Hmark Hstep. rewrite Hstep. cbn [append].
      destruct (IH gt (xs ++ [m]) b f (Some m)) as (ys & H1 & H2 & H3);
        [eauto|].
      exists (m :: ys). rewrite H1, <- app_assoc. split; [reflexivity|].
      split; [constructor; assumption|].
      cbn [boosts_apply]. rewrite H3, andb_true_r.
      destruct (is_boost_marker m) eqn:E; [now apply Hmark | reflexivity]. }
    destruct n;
      try (apply (Hgo _ (or_introl eq_refl));
           [intros E; discriminate | reflexivity]).
    destruct (match prev with Some m => has_boost m | None => false end) eqn:E.
    + apply (Hgo (BoostNode original b0) (or_introl eq_refl));
        [auto | cbn [clean_boost_step]; now rewrite Hlast].
    + apply (Hgo (WordNode original));
        [right; eauto | intros E'; discriminate
        | cbn [clean_boost_step]; now rewrite Hlast].
Qed.

(** X5: [clean_boost] keeps the kind of the group and the place of every
    node: a node is left as it is or, if it is a boost marker, turned
    into the word of its original text; and every marker that is left
    comes right after a node with boost capability. *)
Theorem clean_boost_places_markers (p : parser) (gt : grouptype)
    (ns : list node) (b : float) (f : option string) :
  exists ys,
    clean_boost p (Group gt ns b f) = Group gt ys b f /\
    Forall2 kept_or_demoted ns ys /\
    boosts_apply None ys = true.
Proof.
  unfold clean_boost. cbn [nodes empty_copy].
  destruct (clean_boost_fold ns gt [] b f None eq_refl) as (ys & H1 & H2 & H3).
  exists ys. rewrite H1. auto.
Qed.

(** The loop of [do_boost] on markers that all come right after a node
    with boost capability appends the other nodes only. *)
Lemma do_boost_fold_applies (p : parser) (l : list node) :
  forall (acc : group) (prev : option node),
    boosts_apply prev l = true ->
    (forall m, prev = Some m -> has_boost m = true ->
       last_has_boost acc = true) ->
    List.length (nodes (fold_left (do_boost_step (do_boost p)) l acc))
    = List.length (nodes acc) + List.length (filter no_boost_marker l).
Proof.
  induction l as [|n l IH]; intros acc prev Happly Hprev.
  - simpl. lia.
  - cbn [boosts_apply] in Happly. apply andb_prop in Happly as [Hn Hl].
    cbn [fold_left filter].
    assert (Hput : forall n', has_boost n' = has_boost n ->
              is_boost_marker n = false ->
              do_boost_step (do_boost p) acc n = append acc n' ->
              List.length
                (nodes (fold_left (do_boost_step (do_boost p)) l
                          (do_boost_step (do_boost p) acc n)))
              = List.length (nodes acc)
                + List.length
                    (if no_boost_marker n
                     then n :: filter no_boost_marker l
                     else filter no_boost_marker l)).
    { intros n' Hcap Hmark Hstep. rewrite Hstep.
      rewrite (IH (append acc n') (Some n) Hl).
      - unfold no_boost_marker at 2. rewrite Hmark. destruct acc; simpl.
        rewrite length_app. simpl. lia.
      - intros m Hm Hb. inversion Hm; subst m. destruct acc as [gt xs b f].
        cbn [append]. now rewrite last_has_boost_snoc, Hcap. }
    destruct n; try (apply (Hput _ eq_refl eq_refl eq_refl)).
    + cbn [is_boost_marker] in Hn. destruct prev as [m|]; [| discriminate].
      cbn [do_boost_step]. rewrite (Hprev m eq_refl Hn).
      destruct acc as [gt xs bb f]. unfold update_last.
      unfold last_has_boost, nonempty in Hprev. cbn [nodes] in *.
      specialize (Hprev m eq_refl Hn).
      destruct xs as [|x xs]; [discriminate|].
      destruct (rev (x :: xs)) as [|y r] eqn:Hrev.
      { apply (f_equal (@List.length node)) in Hrev.
        rewrite length_rev in Hrev. discriminate. }
      rewrite (IH _ (Some (BoostNode original b)) Hl).
      * cbn [nodes no_boost_marker is_boost_marker negb].
        apply (f_equal (@List.length node)) in Hrev.
        rewrite length_rev in Hrev. cbn [List.length] in *.
        rewrite length_app, length_rev. simpl. lia.
      * intros m' Hm' Hb'. inversion Hm'; subst. discriminate.
    + apply (Hput (GroupNode (do_boost p g)) eq_refl eq_refl eq_refl).
Qed.

(** X6: once [clean_boost] has run, [do_boost] turns no marker of the
    group into a word: it applies every one of them, and returns as many
    children as the cleaned group has nodes that are no markers. *)
Theorem do_boost_after_clean_boost (p : parser) (g : group) :
  List.length (nodes (do_boost p (clean_boost p g)))
  = List.length (filter no_boost_marker (nodes (clean_boost p g))).
Proof.
  destruct g as [gt ns b f]. unfold clean_boost. cbn [nodes empty_copy].
  destruct (clean_boost_fold ns gt [] b f None eq_refl) as (ys & -> & _ & Hys).
  cbn [do_boost empty_copy nodes app].
  rewrite (do_boost_fold_applies p ys (Group gt [] b f) None Hys);
    [reflexivity | discriminate].
Qed.

(** ** GtLtPlugin, further *)

Lemma make_range_cases (n : node) (rel : string) :
  (has_text n = false -> make_range n rel = Raise AttributeError) /\
  (has_text n = true -> known_rel rel = false ->
   make_range n rel = Raise UnboundLocalError) /\
  (has_text n = true -> known_rel rel = true ->
   exists r, make_range n rel = Ok r /\ has_text r = false /\ is_gtlt r = false).
Proof.
  unfold make_range, known_rel. repeat split.
  - destruct n; try discriminate; reflexivity.
  - intros Ht Hrel. destruct n; try discriminate. cbn [node_text bind].
    destruct (rel =? "<"), (rel =? ">"), (rel =? "<="), (rel =? "=<"),
      (rel =? ">="), (rel =? "=>"); try discriminate; reflexivity.
  - intros Ht Hrel. destruct n; try discriminate. cbn [node_text bind].
    destruct (rel =? "<"); [eexists; repeat split|].
    destruct (rel =? ">"); [eexists; repeat split|].
    destruct (rel =? "<="); [eexists; repeat split|].
    destruct (rel =? "=<"); [eexists; repeat split|].
    destruct (rel =? ">="); [eexists; repeat split|].
    destruct (rel =? "=>"); [eexists; repeat split | discriminate].
Qed.



(** X8: whenever [do_gtlt] returns a group, no comparison marker is among
    its children: each one was fused into a range or dropped. *)
Theorem do_gtlt_output_has_no_marker (p : parser) (g out : group) :
  do_gtlt p g = Ok out -> existsb is_gtlt (nodes out) = false.
Proof.
  intros Hrun. apply (do_gtlt_loop_no_marker (nodes g) (empty_copy g) out Hrun).
  now destruct g.
Qed.

Lemma do_gtlt_output_has_no_marker_witness :
  existsb is_gtlt
    (nodes (Group AndGroup
              [FieldnameNode "a" "a:";
               range_of (WordNode "100") (Some "100") None true false]
              1%float None))
  = false.
Proof.
  apply (do_gtlt_output_has_no_marker (mkParser None "content" AndGroup)
           (Group AndGroup
              [FieldnameNode "a" "a:"; GtLtNode ">"; WordNode "100"]
              1%float None)).
  reflexivity.
Defined.

(** Once the new group has a node, the loop of [do_gtlt] comes to its end
    without an error, provided the markers carry known symbols. *)
Lemma do_gtlt_loop_returns (rest : list node) :
  forall acc,
    nonempty acc = true ->
    forallb marker_with_known_rel rest = true ->
    exists out, do_gtlt_loop rest acc = Ok out.
Proof.
  induction rest as [rest IH] using (induction_ltof1 _ (@List.length node)).
  unfold ltof in IH. intros acc Hacc Hrel.
  destruct rest as [|n rest]; [simpl; eauto|].
  cbn [forallb] in Hrel. apply andb_prop in Hrel as [Hn Hrest].
  assert (Hne : forall m, nonempty (append acc m) = true).
  { intros m. destruct acc as [gt xs b f]. unfold nonempty. cbn [append nodes].
    now destruct xs. }
  destruct n; cbn [do_gtlt_loop];
    try (apply IH; [simpl; lia | apply Hne | exact Hrest]).
  destruct rest as [|nextnode rest']; [simpl; eauto|].
  assert (Hlast : exists prevnode, last_node acc = Ok prevnode).
  { unfold last_node. unfold nonempty in Hacc.
    destruct (nodes acc) as [|x xs]; [discriminate|].
    destruct (rev (x :: xs)) as [|y r] eqn:Hrev; [| eauto].
    apply (f_equal (@List.length node)) in Hrev. rewrite length_rev in Hrev.
    discriminate. }
  destruct Hlast as (prevnode & ->). cbn [bind].
  destruct (is_fieldname_node prevnode && has_text nextnode) eqn:Hfuse.
  - apply andb_prop in Hfuse as [_ Htext].
    destruct (proj2 (proj2 (make_range_cases nextnode rel)) Htext Hn)
      as (r & -> & _). cbn [bind].
    cbn [forallb] in Hrest. apply andb_prop in Hrest as [_ Hrest].
    apply IH; [simpl; lia | apply Hne | exact Hrest].
  - apply IH; [simpl; lia | exact Hacc | exact Hrest].
Qed.

(** X9: [do_gtlt] raises [IndexError] on every group that starts with a
    comparison marker and has a second node; on every other group whose
    markers carry known symbols it returns a group. *)
Theorem do_gtlt_raises_iff_leading_marker (p : parser) (gt : grouptype)
    (b : float) (f : option string) :
  (forall rel n rest,
     do_gtlt p (Group gt (GtLtNode rel :: n :: rest) b f) = Raise IndexError) /\
  (forall rel, do_gtlt p (Group gt [GtLtNode rel] b f) = Ok (Group gt [] b f)) /\
  do_gtlt p (Group gt [] b f) = Ok (Group gt [] b f) /\
  (forall n rest,
     is_gtlt n = false ->
     forallb marker_with_known_rel rest = true ->
     exists out, do_gtlt p (Group gt (n :: rest) b f) = Ok out).
Proof.
  repeat split.
  intros n rest Hn Hrest. unfold do_gtlt. cbn [nodes empty_copy].
  assert (Hstep : do_gtlt_loop (n :: rest) (Group gt [] b f)
                  = do_gtlt_loop rest (Group gt [n] b f))
    by (destruct n; try reflexivity; discriminate).
  rewrite Hstep. now apply do_gtlt_loop_returns.
Qed.

Lemma do_gtlt_raises_iff_leading_marker_witness :
  exists out,
    do_gtlt (mkParser None "content" AndGroup)
      (Group AndGroup [FieldnameNode "a" "a:"; GtLtNode "<="; WordNode "z"]
         1%float None)
    = Ok out.
Proof.
  apply (proj2 (proj2 (proj2 (do_gtlt_raises_iff_leading_marker
                                (mkParser None "content" AndGroup) AndGroup
                                1%float None)))); reflexivity.
Defined.

(** X10: a group without comparison markers goes through [do_gtlt]
    unchanged. *)
Theorem do_gtlt_fixes_marker_free (p : parser) (g : group) :
  existsb is_gtlt (nodes g) = false -> do_gtlt p g = Ok g.
Proof.
  destruct g as [gt ns b f]. unfold do_gtlt. cbn [nodes empty_copy].
  intros Hfree.
  assert (Hloop : forall xs,
             do_gtlt_loop ns (Group gt xs b f) = Ok (Group gt (xs ++ ns) b f)).
  { induction ns as [|n ns IH]; intros xs.
    - simpl. now rewrite app_nil_r.
    - cbn [existsb] in Hfree. apply orb_false_elim in Hfree as [Hn Hns].
      destruct n; try discriminate; cbn [do_gtlt_loop append];
        rewrite (IH Hns), <- app_assoc; reflexivity. }
  apply Hloop.
Qed.

Lemma do_gtlt_fixes_marker_free_witness :
  do_gtlt (mkParser None "content" AndGroup) whitespace_free_tree
  = Ok whitespace_free_tree.
Proof.
  apply (do_gtlt_fixes_marker_free (mkParser None "content" AndGroup)
           whitespace_free_tree).
  reflexivity.
Defined.

(** ** GroupPlugin.do_groups, further *)

Lemma leaves_eq (gt : grouptype) (ns : list node) (b : float)
    (f : option string) :
  leaves (Group gt ns b f) = flat_map node_leaves ns.
Proof. reflexivity. Qed.

Lemma leaves_extend (g : group) (l : list node) :
  leaves (extend g l) = leaves g ++ flat_map node_leaves l.
Proof. destruct g. cbn [extend]. rewrite !leaves_eq. apply flat_map_app. Qed.

Lemma leaves_append (g : group) (n : node) :
  leaves (append g n) = leaves g ++ node_leaves n.
Proof.
  rewrite append_as_extend, leaves_extend. simpl. now rewrite app_nil_r.
Qed.

Lemma leaves_collapse (top : group) : leaves (collapse top) = leaves top.
Proof.
  destruct top as [gt ns b f]. unfold collapse. cbn [nodes].
  destruct ns as [|n ns]; [reflexivity|].
  destruct n; try reflexivity. destruct g as [gt' ns' b' f'].
  destruct ns; [| reflexivity].
  rewrite !leaves_eq. simpl. now rewrite app_nil_r.
Qed.

Lemma stack_leaves_snoc (below : list group) (top : group) :
  stack_leaves (below ++ [top]) = stack_leaves below ++ leaves top.
Proof.
  unfold stack_leaves. rewrite flat_map_app. simpl. now rewrite app_nil_r.
Qed.

(** A turn of the loop adds the leaves of the node it reads to those of
    the stack, unless the node is a bracket. *)
Lemma do_groups_step_leaves (p : parser) (stack stack' : list group)
    (n : node) :
  stack <> [] ->
  do_groups_step p stack n = Ok stack' ->
  stack_leaves stack'
  = stack_leaves stack ++ (if no_bracket n then node_leaves n else []).
Proof.
  intros Hne. destruct (stack_snoc stack Hne) as (below & top & ->).
  assert (Hother : stack_top_append (below ++ [top]) n = Ok stack' ->
            stack_leaves stack'
            = stack_leaves (below ++ [top]) ++ node_leaves n).
  { rewrite stack_top_append_snoc. intros H; inversion H; subst.
    now rewrite !stack_leaves_snoc, leaves_append, app_assoc. }
  destruct n; cbn [do_groups_step no_bracket is_open is_close orb negb];
    try exact Hother.
  - intros H; inversion H; subst.
    rewrite (stack_leaves_snoc (below ++ [top])). reflexivity.
  - destruct (1 <? List.length (below ++ [top]))%nat eqn:Hlen.
    + rewrite stack_pop_snoc. cbn [bind fst snd].
      apply Nat.ltb_lt in Hlen. rewrite length_app in Hlen. simpl in Hlen.
      assert (Hb : below <> []) by (destruct below; simpl in *; [lia | easy]).
      destruct (stack_snoc below Hb) as (below' & top' & ->).
      rewrite stack_top_append_snoc. intros H; inversion H; subst.
      rewrite !stack_leaves_snoc, leaves_append, app_nil_r.
      cbn [node_leaves]. now rewrite app_assoc.
    + intros H; inversion H; subst. now rewrite app_nil_r.
Qed.

Lemma do_groups_loop_leaves (p : parser) (ns : list node) :
  forall stack stack',
    stack <> [] ->
    do_groups_loop p ns stack = Ok stack' ->
    stack_leaves stack'
    = stack_leaves stack ++ flat_map node_leaves (filter no_bracket ns).
Proof.
  induction ns as [|n ns IH]; intros stack stack' Hne Hrun.
  - inversion Hrun; subst. simpl. now rewrite app_nil_r.
  - cbn [do_groups_loop] in Hrun.
    destruct (do_groups_step_ok p stack n Hne) as (s1 & H1 & H2 & _).
    rewrite H1 in Hrun. cbn [bind] in Hrun.
    rewrite (IH s1 stack' H2 Hrun), (do_groups_step_leaves p stack s1 n Hne H1).
    cbn [filter]. destruct (no_bracket n); simpl;
      now rewrite <- ?app_assoc, ?app_nil_r.
Qed.

Lemma do_groups_leaves (p : parser) (g : group) :
  exists out,
    do_groups p g = Ok out /\
    leaves out = flat_map node_leaves (filter no_bracket (nodes g)).
Proof.
  unfold do_groups.
  destruct (do_groups_loop_ok p (nodes g) [new_group (parser_group p) []])
    as (s & H1 & H2 & _); [easy|].
  assert (Hleaves := do_groups_loop_leaves p (nodes g)
                       [new_group (parser_group p) []] s
                       ltac:(discriminate) H1).
  cbn [stack_leaves flat_map new_group leaves app] in Hleaves.
  rewrite H1. cbn [bind]. destruct s as [|top levels]; [easy|].
  eexists. split; [reflexivity|].
  rewrite leaves_collapse.
  assert (Hall : leaves (extend_all top levels) = stack_leaves (top :: levels)).
  { rewrite extend_all_flat, leaves_extend. unfold stack_leaves.
    cbn [flat_map]. f_equal. clear. induction levels as [|l levels IH]; simpl.
    - reflexivity.
    - rewrite flat_map_app, IH. f_equal. now destruct l. }
  assert (Htop : leaves (if (1 <? List.length (top :: levels))%nat
                         then extend_all top levels else top)
                 = stack_leaves (top :: levels)).
  { destruct levels as [|l levels].
    - simpl. now rewrite app_nil_r.
    - change (1 <? List.length (top :: l :: levels))%nat with true.
      exact Hall. }
  rewrite Htop, Hleaves. reflexivity.
Qed.

(** X11: [do_groups] loses and reorders nothing: the leaves of the tree
    it returns are, in order, the leaves of the nodes it was given,
    without the brackets. *)
Theorem do_groups_keeps_leaves (p : parser) (g : group) :
  exists out,
    do_groups p g = Ok out /\
    leaves out = flat_map node_leaves (filter no_bracket (nodes g)).
Proof. apply do_groups_leaves. Qed.

Lemma every_leaf_leaves (ok : node -> bool) (g : group) :
  every_leaf ok g = forallb ok (leaves g).
Proof.
  induction g as [gt ns b f IH] using group_rect_nested.
  rewrite every_leaf_eq, leaves_eq.
  induction IH as [|g l Hg _ IHl|n l Hn _ IHl]; cbn [forallb flat_map].
  - reflexivity.
  - rewrite forallb_app, leaf_ok_group, Hg, IHl. reflexivity.
  - rewrite forallb_app, IHl, (leaf_ok_other ok n Hn).
    destruct n; try discriminate; simpl; now rewrite andb_true_r.
Qed.

(** X12: of a flat sequence, as the taggers make it, [do_groups] returns
    a tree that holds no bracket at any depth. *)
Theorem do_groups_removes_brackets (p : parser) (g : group) :
  forallb (fun n => negb (is_group n)) (nodes g) = true ->
  exists out, do_groups p g = Ok out /\ every_leaf no_bracket out = true.
Proof.
  intros Hflat.
  destruct (do_groups_leaves p g) as (out & Hrun & Hleaves). exists out. split; [exact Hrun|].
  rewrite every_leaf_leaves, Hleaves. clear Hrun Hleaves. revert Hflat.
  generalize (nodes g). intros ns.
  induction ns as [|n ns IH]; intros Hflat; [reflexivity|].
  cbn [forallb filter] in *. apply andb_prop in Hflat as [Hn Hns].
  destruct (no_bracket n) eqn:Hb; [| now apply IH].
  cbn [flat_map]. rewrite forallb_app, (IH Hns), andb_true_r.
  destruct n; try discriminate; simpl; now rewrite ?Hb.
Qed.

Lemma do_groups_removes_brackets_witness :
  exists out,
    do_groups (mkParser None "content" AndGroup) unbalanced_query = Ok out /\
    every_leaf no_bracket out = true.
Proof.
  apply (do_groups_removes_brackets (mkParser None "content" AndGroup)
           unbalanced_query).
  reflexivity.
Defined.

(** The loop on nodes that are no brackets appends them to the top of the
    stack. *)
Lemma do_groups_loop_plain (p : parser) (ns : list node) :
  forallb no_bracket ns = true ->
  forall below top,
    do_groups_loop p ns (below ++ [top]) = Ok (below ++ [extend top ns]).
Proof.
  induction ns as [|n ns IH]; intros Hplain below top.
  - simpl. now rewrite extend_nil.
  - cbn [forallb] in Hplain. apply andb_prop in Hplain as [Hn Hns].
    cbn [do_groups_loop].
    assert (Hstep : do_groups_step p (below ++ [top]) n
                    = Ok (below ++ [append top n])).
    { destruct n; try discriminate; apply stack_top_append_snoc. }
    rewrite Hstep. cbn [bind]. rewrite (IH Hns).
    now rewrite append_as_extend, extend_extend.
Qed.

Lemma do_groups_loop_plain1 (p : parser) (ns : list node) (top : group) :
  forallb no_bracket ns = true ->
  do_groups_loop p ns [top] = Ok [extend top ns].
Proof. intros H. exact (do_groups_loop_plain p ns H [] top). Qed.

Lemma do_groups_loop_plain2 (p : parser) (ns : list node) (base top : group) :
  forallb no_bracket ns = true ->
  do_groups_loop p ns [base; top] = Ok [base; extend top ns].
Proof. intros H. exact (do_groups_loop_plain p ns H [base] top). Qed.

Lemma do_groups_loop_app (p : parser) (l1 l2 : list node) (stack : list group) :
  do_groups_loop p (l1 ++ l2) stack
  = (stack' <- do_groups_loop p l1 stack ;; do_groups_loop p l2 stack').
Proof.
  revert stack. induction l1 as [|n l1 IH]; intros stack; [reflexivity|].
  cbn [app do_groups_loop]. rewrite bind_assoc. apply bind_ext. intros s.
  apply IH.
Qed.

(** X13: brackets that match make a group of what they enclose: with
    [A], [X] and [B] free of brackets, the sequence [A ( X ) B] comes back
    as the parser's default group of [A], the group of [X], and [B]; a
    sequence without brackets comes back as the default group of its
    nodes.  (In both cases a top level that holds one group and nothing
    else is that group.) *)
Theorem do_groups_nests (p : parser) (gt : grouptype) (b : float)
    (f : option string) (A X B : list node) :
  forallb no_bracket A = true ->
  forallb no_bracket X = true ->
  forallb no_bracket B = true ->
  let pg := parser_group p in
  do_groups p (Group gt (A ++ OpenBracket :: X ++ CloseBracket :: B) b f)
  = Ok (collapse (new_group pg (A ++ GroupNode (new_group pg X) :: B))) /\
  do_groups p (Group gt A b f) = Ok (collapse (new_group pg A)).
Proof.
  intros HA HX HB pg. unfold do_groups. cbn [nodes]. fold pg. split.
  - rewrite do_groups_loop_app, (do_groups_loop_plain1 p A _ HA).
    cbn [bind app extend new_group do_groups_loop do_groups_step].
    rewrite do_groups_loop_app, (do_groups_loop_plain2 p X _ _ HX).
    cbn [bind app extend do_groups_loop do_groups_step List.length].
    change (1 <? 2)%nat with true. cbv iota.
    unfold stack_pop, stack_top_append.
    cbn [rev app bind fst snd append new_group extend].
    rewrite (do_groups_loop_plain1 p B _ HB).
    cbn [bind app extend List.length]. change (1 <? 1)%nat with false.
    cbv iota. rewrite <- app_assoc. reflexivity.
  - rewrite (do_groups_loop_plain1 p A _ HA). reflexivity.
Qed.

Lemma do_groups_nests_witness :
  do_groups (mkParser None "content" OrGroup)
    (Group AndGroup
       [WordNode "a"; OpenBracket; WordNode "b"; WordNode "c"; CloseBracket]
       1%float None)
  = Ok (new_group OrGroup
          [WordNode "a"; GroupNode (new_group OrGroup [WordNode "b"; WordNode "c"])]).
Proof.
  apply (do_groups_nests (mkParser None "content" OrGroup) AndGroup 1%float
           None [WordNode "a"] [WordNode "b"; WordNode "c"] []); reflexivity.
Defined.

(** X14: a bracket without its partner is dropped: with [A] and [X] free
    of brackets, both [A ( X] and [A ) X] come back as the default group
    of the nodes of [A] and [X]. *)
Theorem do_groups_drops_lone_bracket (p : parser) (gt : grouptype)
    (b : float) (f : option string) (A X : list node) :
  forallb no_bracket A = true ->
  forallb no_bracket X = true ->
  let pg := parser_group p in
  do_groups p (Group gt (A ++ OpenBracket :: X) b f)
  = Ok (collapse (new_group pg (A ++ X))) /\
  do_groups p (Group gt (A ++ CloseBracket :: X) b f)
  = Ok (collapse (new_group pg (A ++ X))).
Proof.
  intros HA HX pg. unfold do_groups. cbn [nodes]. fold pg. split.
  - rewrite do_groups_loop_app, (do_groups_loop_plain1 p A _ HA).
    cbn [bind app extend new_group do_groups_loop do_groups_step].
    rewrite (do_groups_loop_plain2 p X _ _ HX).
    cbn [bind app extend]. reflexivity.
  - rewrite do_groups_loop_app, (do_groups_loop_plain1 p A _ HA).
    cbn [bind app extend new_group do_groups_loop do_groups_step List.length].
    change (1 <? 1)%nat with false. cbv iota. cbn [bind].
    rewrite (do_groups_loop_plain1 p X _ HX). reflexivity.
Qed.

Lemma do_groups_drops_lone_bracket_witness :
  do_groups (mkParser None "content" AndGroup)
    (Group AndGroup [WordNode "a"; CloseBracket; WordNode "b"] 1%float None)
  = Ok (new_group AndGroup [WordNode "a"; WordNode "b"]).
Proof.
  apply (do_groups_drops_lone_bracket (mkParser None "content" AndGroup)
           AndGroup 1%float None [WordNode "a"] [WordNode "b"]); reflexivity.
Defined.

(** ** PlusMinusPlugin.do_plusminus, further *)

Lemma operands_of_partition (ns : list node) :
  forall prev,
    Permutation
      (operands_of Required prev ns ++ operands_of Optional prev ns
       ++ operands_of Banned prev ns)
      (filter no_plusminus ns).
Proof.
  induction ns as [|n ns IH]; intros prev; [constructor|].
  cbn [operands_of filter]. unfold no_plusminus at 1.
  destruct (negb (is_plusminus n)); cbn [andb]; [| apply IH].
  destruct (bucket_after prev); cbn [bucket_eqb].
  - cbn [app]. constructor. apply IH.
  - apply Permutation_sym, Permutation_cons_app, Permutation_sym, IH.
  - rewrite app_assoc.
    apply Permutation_sym, Permutation_cons_app, Permutation_sym.
    rewrite <- app_assoc. apply IH.
Qed.

Lemma do_plusminus_leaves (p : parser) (g : group) :
  leaves (do_plusminus p g)
  = flat_map node_leaves
      (operands_of Required None (nodes g)
       ++ operands_of Optional None (nodes g)
       ++ operands_of Banned None (nodes g)).
Proof.
  unfold do_plusminus.
  destruct (do_plusminus_buckets (nodes g)) as (H1 & H2 & H3).
  cbn zeta in H1, H2, H3. rewrite H1, H2, H3. unfold nonempty, new_group.
  cbn [nodes]. rewrite !flat_map_app.
  assert (Hg : forall gt ns b f,
             node_leaves (GroupNode (Group gt ns b f))
             = flat_map node_leaves ns) by reflexivity.
  destruct (operands_of Required None (nodes g)) as [|r rs];
    destruct (operands_of Banned None (nodes g)) as [|x xs];
    rewrite ?leaves_eq; cbn [flat_map]; rewrite ?Hg; cbn [flat_map app];
    rewrite ?Hg; cbn [flat_map app];
    rewrite ?app_nil_r, <- ?app_assoc; reflexivity.
Qed.

(** X15: [do_plusminus] puts every operand into exactly one of its three
    groups: the leaves of the tree it returns are the leaves of the nodes
    it was given, without the plus and minus markers, in some order. *)
Theorem do_plusminus_partitions (p : parser) (g : group) :
  Permutation (leaves (do_plusminus p g))
    (flat_map node_leaves (filter no_plusminus (nodes g))).
Proof.
  rewrite do_plusminus_leaves.
  apply Permutation_flat_map, operands_of_partition.
Qed.

Lemma operands_of_plain (ns : list node) :
  forallb no_plusminus ns = true ->
  forall prev,
    bucket_after prev = Optional ->
    operands_of Required prev ns = [] /\
    operands_of Optional prev ns = ns /\
    operands_of Banned prev ns = [].
Proof.
  induction ns as [|n ns IH]; intros Hplain prev Hprev; [auto|].
  cbn [forallb] in Hplain. apply andb_prop in Hplain as [Hn Hns].
  cbn [operands_of]. unfold no_plusminus in Hn. rewrite Hn, Hprev.
  cbn [andb bucket_eqb].
  assert (Hnext : bucket_after (Some n) = Optional)
    by (destruct n; try reflexivity; discriminate).
  destruct (IH Hns (Some n) Hnext) as (H1 & H2 & H3).
  now rewrite H1, H2, H3.
Qed.

(** X16: a group without plus and minus markers comes back as a fresh Or
    group of its nodes, whatever its own kind and boost were. *)
Theorem do_plusminus_without_markers (p : parser) (g : group) :
  forallb no_plusminus (nodes g) = true ->
  do_plusminus p g = new_group OrGroup (nodes g).
Proof.
  intros Hplain. unfold do_plusminus.
  destruct (do_plusminus_buckets (nodes g)) as (H1 & H2 & H3).
  destruct (operands_of_plain (nodes g) Hplain None eq_refl) as (E1 & E2 & E3).
  cbn zeta in H1, H2, H3. rewrite H1, H2, H3, E1, E2, E3. reflexivity.
Qed.

Lemma do_plusminus_without_markers_witness :
  do_plusminus (mkParser None "content" AndGroup) whitespace_free_tree
  = new_group OrGroup (nodes whitespace_free_tree).
Proof.
  apply (do_plusminus_without_markers (mkParser None "content" AndGroup)
           whitespace_free_tree).
  reflexivity.
Defined.

Lemma do_plusminus_step_marker (st : plusminus_state) (m1 m2 : node) :
  is_plusminus m1 = true -> is_plusminus m2 = true ->
  do_plusminus_step (do_plusminus_step st m1) m2 = do_plusminus_step st m2.
Proof. destruct m1; try discriminate; destruct m2; try discriminate; auto. Qed.

(** X17: only the last of several markers in a row counts, and a marker
    at the end of the group has no effect. *)
Theorem do_plusminus_last_marker_wins (p : parser) (gt : grouptype)
    (b : float) (f : option string) (A B : list node) (m1 m2 : node) :
  is_plusminus m1 = true ->
  is_plusminus m2 = true ->
  do_plusminus p (Group gt (A ++ m1 :: m2 :: B) b f)
  = do_plusminus p (Group gt (A ++ m2 :: B) b f) /\
  do_plusminus p (Group gt (A ++ [m1]) b f) = do_plusminus p (Group gt A b f).
Proof.
  intros H1 H2. unfold do_plusminus, do_plusminus_loop. cbn [nodes].
  rewrite !fold_left_app. cbn [fold_left].
  rewrite (do_plusminus_step_marker _ m1 m2 H1 H2). split; [reflexivity|].
  destruct m1; try discriminate; reflexivity.
Qed.

Lemma do_plusminus_last_marker_wins_witness :
  do_plusminus (mkParser None "content" AndGroup)
    (Group AndGroup [Plus; Minus; WordNode "a"] 1%float None)
  = do_plusminus (mkParser None "content" AndGroup)
      (Group AndGroup [Minus; WordNode "a"] 1%float None).
Proof.
  apply (do_plusminus_last_marker_wins (mkParser None "content" AndGroup)
           AndGroup 1%float None [] [WordNode "a"] Plus Minus); reflexivity.
Defined.

(** ** FieldsPlugin.do_fieldnames, further *)

Lemma set_fieldname_no_marker (name : string) (override : bool) (n : node) :
  leaf_ok no_fieldname_marker (set_fieldname name override n)
  = leaf_ok no_fieldname_marker n.
Proof.
  assert (Hgroups : forall g,
            leaf_ok no_fieldname_marker
              (set_fieldname name override (GroupNode g))
            = leaf_ok no_fieldname_marker (GroupNode g)).
  { induction g as [gt ns b f IH] using group_rect_nested.
    cbn [set_fieldname]. rewrite !leaf_ok_group, !every_leaf_eq.
    induction IH as [|g l Hg _ IHl|m l Hm _ IHl]; cbn [map forallb].
    - reflexivity.
    - now rewrite Hg, IHl.
    - rewrite IHl. f_equal. destruct m; try discriminate; reflexivity. }
  destruct n; try apply Hgroups; reflexivity.
Qed.

Lemma field_visit_no_marker (rec : group -> result group) (n n' : node) :
  (forall g g', rec g = Ok g' -> every_leaf no_fieldname_marker g' = true) ->
  field_visit rec n = Ok n' ->
  leaf_ok no_fieldname_marker n' = true.
Proof.
  intros Hrec. destruct n; simpl; intros H;
    try (inversion H; subst; reflexivity).
  destruct (rec g) as [g''|] eqn:Hg; [| discriminate].
  simpl in H. inversion H; subst. rewrite leaf_ok_group. eauto.
Qed.

Lemma assign_fields_no_marker (rec : group -> result group) :
  (forall g g', rec g = Ok g' -> every_leaf no_fieldname_marker g' = true) ->
  forall l acc out,
    assign_fields rec l acc = Ok out ->
    forallb (leaf_ok no_fieldname_marker) (nodes acc) = true ->
    forallb (leaf_ok no_fieldname_marker) (nodes out) = true.
Proof.
  intros Hrec l.
  induction l as [l IH] using (induction_ltof1 _ (@List.length node)).
  unfold ltof in IH. intros acc out Hrun Hacc. destruct l as [|n l].
  - now inversion Hrun; subst.
  - rewrite assign_fields_cons in Hrun.
    destruct (field_visit rec n) as [n'|] eqn:Hv; [| discriminate].
    cbn [bind] in Hrun.
    pose proof (field_visit_no_marker rec n n' Hrec Hv) as Hn.
    assert (Hput : forall m, leaf_ok no_fieldname_marker m = true ->
              forallb (leaf_ok no_fieldname_marker) (nodes (append acc m))
              = true)
      by (intros m Hm; destruct acc; cbn [append nodes] in *;
          now rewrite forallb_snoc, Hacc, Hm).
    destruct (consumed n' l) as [[fname l']|] eqn:Hc.
    + destruct (consumed_shorter _ _ _ _ Hc) as (o & ->).
      apply (IH l') in Hrun; [exact Hrun | simpl; lia |].
      apply Hput. now rewrite set_fieldname_no_marker.
    + apply (IH l) in Hrun; [exact Hrun | simpl; lia | now apply Hput].
Qed.

Lemma do_fieldnames_no_marker (fuel : nat) (self : FieldsPlugin) (p : parser) :
  forall g out,
    do_fieldnames fuel self p g = Ok out ->
    every_leaf no_fieldname_marker out = true.
Proof.
  induction fuel as [|fuel IH]; intros g out Hrun; [discriminate|].
  rewrite do_fieldnames_S in Hrun.
  destruct (assign_fields (do_fieldnames fuel self p)
              (rev (nodes (first_loop self p g)))
              (empty_copy (first_loop self p g))) as [newgroup|] eqn:Hloop;
    [| discriminate].
  cbn [bind] in Hrun. inversion Hrun; subst out.
  apply (assign_fields_no_marker _ IH) in Hloop;
    [| now destruct (first_loop self p g)].
  destruct newgroup as [gt ys b f]. cbn [reverse nodes] in *.
  rewrite every_leaf_eq, forallb_forall in *.
  intros x Hx. apply Hloop. now apply in_rev.
Qed.

(** X18: whenever [do_fieldnames] returns a tree, no field-name marker is
    left in it, at any depth: each one gave its name to the node after it
    or became a word. *)
Theorem do_fieldnames_removes_markers (fuel : nat) (self : FieldsPlugin)
    (p : parser) (g out : group) :
  do_fieldnames fuel self p g = Ok out ->
  every_leaf no_fieldname_marker out = true.
Proof. apply do_fieldnames_no_marker. Qed.

Lemma do_fieldnames_removes_markers_witness :
  every_leaf no_fieldname_marker
    (Group AndGroup
       [TextNode Word "x" (mkAttrs (Some "body") 1%float None None)]
       1%float None)
  = true.
Proof.
  apply (do_fieldnames_removes_markers 1 (mkFieldsPlugin false)
           (mkParser None "content" AndGroup) fielded_query).
  reflexivity.
Defined.

(** On nodes that are no field-name markers the first loop keeps no text
    pending and appends each node as it is. *)
Lemma unknown_fold_plain (sch : list string) (ns : list node) :
  forallb no_fieldname_marker ns = true ->
  forall gt xs b f,
    fold_left (unknown_step sch) ns (Group gt xs b f, None)
    = (Group gt (xs ++ ns) b f, None).
Proof.
  induction ns as [|n ns IH]; intros Hplain gt xs b f.
  - simpl. now rewrite app_nil_r.
  - cbn [forallb] in Hplain. apply andb_prop in Hplain as [Hn Hns].
    cbn [fold_left].
    assert (Hstep : unknown_step sch (Group gt xs b f, None) n
                    = (Group gt (xs ++ [n]) b f, None))
      by (destruct n; try discriminate; reflexivity).
    rewrite Hstep, (IH Hns), <- app_assoc. reflexivity.
Qed.

Lemma first_loop_plain (self : FieldsPlugin) (p : parser) (g : group) :
  forallb no_fieldname_marker (nodes g) = true -> first_loop self p g = g.
Proof.
  intros Hplain. unfold first_loop.
  destruct (schema p) as [sch|]; [| reflexivity].
  destruct (removeunknown self); [| reflexivity].
  destruct g as [gt ns b f]. rewrite remove_unknown_eq.
  cbn [nodes empty_copy] in *. now rewrite (unknown_fold_plain sch ns Hplain).
Qed.

Lemma every_leaf_top (ok : node -> bool) (gt : grouptype) (ns : list node)
    (b : float) (f : option string) :
  (forall g, ok (GroupNode g) = true) ->
  every_leaf ok (Group gt ns b f) = true -> forallb ok ns = true.
Proof.
  intros Hg. rewrite every_leaf_eq, !forallb_forall. intros H x Hx.
  specialize (H x Hx). destruct x; try exact H. apply Hg.
Qed.

(** The second loop on nodes without markers, when the recursive call
    changes none of the groups, puts the nodes into the new group in the
    order it reads them. *)
Lemma assign_fields_plain (rec : group -> result group) (l : list node) :
  forallb no_fieldname_marker l = true ->
  all_groups (fun g => rec g = Ok g) l ->
  forall gt xs b f,
    assign_fields rec l (Group gt xs b f) = Ok (Group gt (xs ++ l) b f).
Proof.
  induction l as [|n l IH]; intros Hplain Hrec gt xs b f.
  - simpl. now rewrite app_nil_r.
  - cbn [forallb] in Hplain. apply andb_prop in Hplain as [Hn Hl].
    rewrite assign_fields_cons.
    assert (Hv : field_visit rec n = Ok n).
    { inversion Hrec; subst.
      - simpl. now rewrite H1.
      - destruct n; try discriminate; reflexivity. }
    rewrite Hv. cbn [bind].
    assert (Hc : consumed n l = None).
    { destruct l as [|m l']; [reflexivity|].
      cbn [forallb] in Hl. apply andb_prop in Hl as [Hm _].
      destruct m; try discriminate; reflexivity. }
    rewrite Hc. cbn [append].
    rewrite IH; [| exact Hl | inversion Hrec; assumption].
    now rewrite <- app_assoc.
Qed.

Lemma do_fieldnames_plain (self : FieldsPlugin) (p : parser) (fuel : nat) :
  forall g,
    every_leaf no_fieldname_marker g = true ->
    depth g <= fuel ->
    do_fieldnames fuel self p g = Ok g.
Proof.
  induction fuel as [|fuel IH]; intros g Hfree Hd.
  - destruct g. simpl in Hd. lia.
  - destruct g as [gt ns b f]. rewrite do_fieldnames_S.
    assert (Htop : forallb no_fieldname_marker ns = true)
      by (apply (every_leaf_top _ gt ns b f); [reflexivity | exact Hfree]).
    rewrite (first_loop_plain self p (Group gt ns b f) Htop).
    cbn [nodes empty_copy].
    rewrite (assign_fields_plain (do_fieldnames fuel self p) (rev ns)).
    + cbn [bind reverse app]. now rewrite rev_involutive.
    + rewrite forallb_forall in *. intros x Hx. apply Htop. now apply in_rev.
    + apply all_groups_rev. apply depth_bound in Hd.
      rewrite every_leaf_eq in Hfree. clear Htop.
      induction Hd as [|g l Hg _ IHl|n l Hn _ IHl]; cbn [forallb] in Hfree.
      * constructor.
      * apply andb_prop in Hfree as [H1 H2]. constructor; [| now apply IHl].
        apply IH; [exact H1 | exact Hg].
      * apply andb_prop in Hfree as [H1 H2].
        apply all_groups_other; [exact Hn | now apply IHl].
Qed.

(** X19: a tree without field-name markers goes through [do_fieldnames]
    unchanged, as soon as the fuel covers its depth. *)
Theorem do_fieldnames_fixes_marker_free (self : FieldsPlugin) (p : parser)
    (fuel : nat) (g : group) :
  every_leaf no_fieldname_marker g = true ->
  depth g <= fuel ->
  do_fieldnames fuel self p g = Ok g.
Proof. apply do_fieldnames_plain. Qed.

Lemma do_fieldnames_fixes_marker_free_witness :
  do_fieldnames 2 (mkFieldsPlugin true)
    (mkParser (Some ["title"]) "content" AndGroup) whitespace_free_tree
  = Ok whitespace_free_tree.
Proof.
  apply (do_fieldnames_fixes_marker_free (mkFieldsPlugin true)
           (mkParser (Some ["title"]) "content" AndGroup) 2
           whitespace_free_tree); [reflexivity | simpl; lia].
Defined.

Lemma first_loop_off (self : FieldsPlugin) (p : parser) (g : group) :
  keeps_unknown self p -> first_loop self p g = g.
Proof.
  unfold first_loop. intros [-> | ->]; [reflexivity|].
  now destruct (schema p).
Qed.

(** X20: with the first loop switched off, a marker gives its name to the
    text or range node right after it and is consumed, and the filter
    treats the nodes before and the nodes after on their own: the field
    is assigned without override, and neither side sees the other. *)
Theorem do_fieldnames_assigns (fuel : nat) (self : FieldsPlugin) (p : parser)
    (gt : grouptype) (b : float) (f : option string) (A B : list node)
    (name original : string) (n : node) :
  keeps_unknown self p ->
  is_group n = false ->
  has_fieldname n = true ->
  do_fieldnames fuel self p
    (Group gt (A ++ FieldnameNode name original :: n :: B) b f)
  = (after <- do_fieldnames fuel self p (Group gt B b f) ;;
     before <- do_fieldnames fuel self p (Group gt A b f) ;;
     Ok (Group gt
           (nodes before ++ set_fieldname name false n :: nodes after) b f)).
Proof.
  intros Hoff Hng Hcap. destruct fuel as [|fuel]; [reflexivity|].
  rewrite !do_fieldnames_S, !(first_loop_off self p _ Hoff).
  set (rec := do_fieldnames fuel self p). cbn [nodes empty_copy].
  replace (rev (A ++ FieldnameNode name original :: n :: B))
    with (rev B ++ n :: FieldnameNode name original :: rev A)
    by (rewrite rev_app_distr; simpl; now rewrite <- !app_assoc).
  assert (Hn : is_fieldname_node n = false)
    by (destruct n; try reflexivity; discriminate).
  rewrite (assign_fields_split rec n _ Hn).
  destruct (assign_fields rec (rev B) (Group gt [] b f)) as [acc1|e] eqn:H1;
    [| reflexivity].
  apply assign_fields_kind in H1 as (ys & ->). cbn [bind app].
  rewrite assign_fields_cons.
  assert (Hv : field_visit rec n = Ok n)
    by (destruct n; try reflexivity; discriminate).
  assert (Hc : consumed n (FieldnameNode name original :: rev A)
               = Some (name, rev A))
    by (destruct n; try reflexivity; discriminate).
  rewrite Hv. cbn [bind]. rewrite Hc, assign_fields_frame.
  cbn [append empty_copy].
  destruct (assign_fields rec (rev A) (Group gt [] b f)) as [r|e];
    [| reflexivity].
  cbn [bind extend reverse nodes]. destruct r as [rgt rs rb rf].
  cbn [reverse nodes]. rewrite !rev_app_distr. reflexivity.
Qed.

Lemma do_fieldnames_assigns_witness :
  do_fieldnames 1 (mkFieldsPlugin false) (mkParser None "content" AndGroup)
    (Group AndGroup
       [WordNode "a"; FieldnameNode "title" "title:"; WordNode "b";
        WordNode "c"] 1%float None)
  = Ok (Group AndGroup
          [WordNode "a";
           TextNode Word "b" (mkAttrs (Some "title") 1%float None None);
           WordNode "c"] 1%float None).
Proof.
  apply (do_fieldnames_assigns 1 (mkFieldsPlugin false)
           (mkParser None "content" AndGroup) AndGroup 1%float None
           [WordNode "a"] [WordNode "c"] "title" "title:" (WordNode "b"));
    [now right | reflexivity | reflexivity].
Defined.

(** ** FieldsPlugin.do_fieldnames: the first loop, further *)

Lemma existsb_false_append (h : node -> bool) (g : group) (n : node) :
  forallb h (nodes g) = true -> h n = true ->
  forallb h (nodes (append g n)) = true.
Proof.
  intros Hg Hn. destruct g; cbn [append nodes] in *.
  now rewrite forallb_snoc, Hg, Hn.
Qed.

Lemma unknown_fold_known (sch : list string) (ns : list node) :
  forall acc text,
    forallb (no_unknown_marker sch) (nodes acc) = true ->
    forallb (no_unknown_marker sch)
      (nodes (flush (fold_left (unknown_step sch) ns (acc, text)))) = true.
Proof.
  induction ns as [|n ns IH]; intros acc text Hacc.
  - cbn [fold_left flush]. destruct (truthy text); [| exact Hacc].
    now apply existsb_false_append.
  - cbn [fold_left]. unfold unknown_step at 2.
    assert (Hpre : forall t m, no_unknown_marker sch m = true ->
              no_unknown_marker sch (prepend_text t m) = true)
      by (intros t m; destruct m; auto).
    destruct n;
      try (destruct (truthy text); cbn [has_text];
           apply IH; repeat apply existsb_false_append; auto; fail).
    destruct (negb (in_schema fname sch)) eqn:Hknown; [now apply IH|].
    apply negb_false_iff in Hknown.
    destruct (truthy text); apply IH;
      repeat apply existsb_false_append; auto.
Qed.

(** X21: the first loop of [do_fieldnames] leaves no marker of a field
    that the schema does not know; the markers it keeps name known
    fields. *)
Theorem remove_unknown_leaves_known (sch : list string) (g : group) :
  forallb (no_unknown_marker sch) (nodes (remove_unknown sch g)) = true.
Proof.
  rewrite remove_unknown_eq. apply unknown_fold_known. now destruct g.
Qed.

(** X22: the marker of an unknown field that no marker precedes is merged
    into the text node after it, whose text then starts with the marker's
    original text; before a node without text it becomes a word of its
    own. *)
Theorem remove_unknown_merges (sch : list string) (gt : grouptype)
    (b : float) (f : option string) (A B : list node)
    (name original : string) (n : node) :
  forallb no_fieldname_marker A = true ->
  in_schema name sch = false ->
  original <> "" ->
  is_fieldname_node n = false ->
  remove_unknown sch (Group gt (A ++ FieldnameNode name original :: n :: B) b f)
  = Group gt
      (A ++ (if has_text n then [prepend_text original n]
             else [WordNode original; n])
       ++ nodes (remove_unknown sch (Group gt B b f))) b f.
Proof.
  intros HA Hunknown Horig Hn.
  assert (Htrue : truthy (Some original) = true).
  { simpl. destruct (original =? "") eqn:E; [| reflexivity].
    apply String.eqb_eq in E. contradiction. }
  rewrite remove_unknown_eq. cbn [nodes empty_copy].
  rewrite fold_left_app, (unknown_fold_plain sch A HA). cbn [fold_left app].
  rewrite unknown_step_marker, Hunknown. cbn [negb].
  assert (Hstep : unknown_step sch (Group gt A b f, Some original) n
                  = if has_text n
                    then (append (Group gt A b f) (prepend_text original n),
                          None)
                    else (append (append (Group gt A b f) (WordNode original))
                            n, None)).
  { destruct n; try discriminate; unfold unknown_step; rewrite Htrue;
      reflexivity. }
  rewrite Hstep. destruct (has_text n); cbn [append];
    rewrite (unknown_fold_restart sch B gt _ b f None eq_refl),
      <- ?app_assoc; reflexivity.
Qed.

Lemma remove_unknown_merges_witness :
  remove_unknown ["content"]
    (Group AndGroup [FieldnameNode "http" "http:"; WordNode "//x"] 1%float None)
  = Group AndGroup [WordNode "http://x"] 1%float None.
Proof.
  apply (remove_unknown_merges ["content"] AndGroup 1%float None [] []
           "http" "http:" (WordNode "//x"));
    [reflexivity | reflexivity | discriminate | reflexivity].
Defined.

(** ** OperatorsPlugin, further *)

Lemma scan_left_plain (tagger : OpTagger) (group : list node) :
  forallb no_operator group = true ->
  forall fuel i,
    List.length group - i <= fuel ->
    scan_left fuel tagger group i = Ok group.
Proof.
  intros Hplain fuel. induction fuel as [|fuel IH]; intros i Hfuel.
  - simpl. destruct (i <? List.length group)%nat eqn:Hlt; [| reflexivity].
    apply Nat.ltb_lt in Hlt. lia.
  - cbn [scan_left]. destruct (i <? List.length group)%nat eqn:Hlt;
      [| reflexivity].
    apply Nat.ltb_lt in Hlt.
    destruct (nth_error group i) as [t|] eqn:Hnth;
      [| apply nth_error_None in Hnth; lia].
    assert (Ht : is_optype (tg_optype tagger) t = false).
    { apply nth_error_In in Hnth. rewrite forallb_forall in Hplain.
      specialize (Hplain t Hnth). destruct t; try reflexivity; discriminate. }
    rewrite Ht. cbn [andb]. apply IH. lia.
Qed.

Lemma scan_right_plain (tagger : OpTagger) (group : list node) :
  forallb no_operator group = true ->
  forall fuel i,
    (i < Z.of_nat (List.length group))%Z ->
    (i + 1 <= Z.of_nat fuel)%Z ->
    scan_right fuel tagger group i = Ok group.
Proof.
  intros Hplain fuel. induction fuel as [|fuel IH]; intros i Hi Hfuel.
  - simpl. destruct (0 <=? i)%Z eqn:Hle; [| reflexivity].
    apply Z.leb_le in Hle. lia.
  - cbn [scan_right]. destruct (0 <=? i)%Z eqn:Hle; [| reflexivity].
    apply Z.leb_le in Hle.
    destruct (nth_error group (Z.to_nat i)) as [t|] eqn:Hnth;
      [| apply nth_error_None in Hnth; lia].
    assert (Ht : is_optype (tg_optype tagger) t = false).
    { apply nth_error_In in Hnth. rewrite forallb_forall in Hplain.
      specialize (Hplain t Hnth). destruct t; try reflexivity; discriminate. }
    rewrite Ht. apply IH; lia.
Qed.

Lemma resolve_all_plain (ops : list (OpTagger * Z)) (group : list node) :
  forallb no_operator group = true -> resolve_all ops group = Ok group.
Proof.
  intros Hplain. induction ops as [|[tagger pr] ops IH]; [reflexivity|].
  cbn [resolve_all]. unfold resolve.
  destruct (tg_leftassoc tagger).
  - rewrite (scan_left_plain tagger group Hplain); [exact IH | lia].
  - rewrite (scan_right_plain tagger group Hplain); [exact IH | lia | lia].
Qed.

Lemma descend_plain (rec : group -> result group) (ns : list node) :
  all_groups (fun g => rec g = Ok g) ns -> descend rec ns = Ok ns.
Proof.
  induction 1 as [|g l Hg _ IH|n l Hn _ IH]; [reflexivity| |].
  - cbn [descend]. now rewrite Hg, IH.
  - destruct n; try discriminate; cbn [descend]; now rewrite IH.
Qed.

Lemma do_operators_plain (ops : list (OpTagger * Z)) (p : parser)
    (fuel : nat) :
  forall g,
    every_leaf no_operator g = true ->
    depth g <= fuel ->
    do_operators fuel ops p g = Ok g.
Proof.
  induction fuel as [|fuel IH]; intros g Hfree Hd.
  - destruct g. simpl in Hd. lia.
  - destruct g as [gt ns b f]. cbn [do_operators].
    assert (Htop : forallb no_operator ns = true)
      by (apply (every_leaf_top _ gt ns b f); [reflexivity | exact Hfree]).
    rewrite (resolve_all_plain ops ns Htop). cbn [bind].
    rewrite descend_plain; [reflexivity|].
    apply depth_bound in Hd. rewrite every_leaf_eq in Hfree. clear Htop.
    induction Hd as [|g l Hg _ IHl|n l Hn _ IHl]; cbn [forallb] in Hfree.
    + constructor.
    + apply andb_prop in Hfree as [H1 H2]. constructor; [| now apply IHl].
      apply IH; [exact H1 | exact Hg].
    + apply andb_prop in Hfree as [H1 H2].
      apply all_groups_other; [exact Hn | now apply IHl].
Qed.

(** X23: a tree without operator markers goes through [do_operators]
    unchanged, whatever operators are registered, as soon as the fuel
    covers its depth: the loops change a group at operator markers
    only. *)
Theorem do_operators_fixes_operator_free (ops : list (OpTagger * Z))
    (p : parser) (fuel : nat) (g : group) :
  every_leaf no_operator g = true ->
  depth g <= fuel ->
  do_operators fuel ops p g = Ok g.
Proof. apply do_operators_plain. Qed.

Lemma do_operators_fixes_operator_free_witness :
  do_operators 2 default_ops (mkParser None "content" AndGroup)
    whitespace_free_tree
  = Ok whitespace_free_tree.
Proof.
  apply (do_operators_fixes_operator_free default_ops
           (mkParser None "content" AndGroup) 2 whitespace_free_tree);
    [reflexivity | simpl; lia].
Defined.

Lemma add_op_suffix (pattern : option string) (mk : string -> OpTagger)
    (priority : Z) (ops : list (OpTagger * Z)) :
  exists more,
    add_op pattern mk priority ops = ops ++ more /\ List.length more <= 1.
Proof.
  unfold add_op. destruct (truthy pattern).
  - eexists. split; [reflexivity | simpl; lia].
  - exists []. rewrite app_nil_r. split; [reflexivity | simpl; lia].
Qed.

(** X24: [OperatorsPlugin.__init__] keeps the operators it is given in
    front of the default ones, so that they are resolved first; with
    [clean] it registers them alone, and with every pattern set to
    [None] as well. *)
Theorem OperatorsPlugin_init_keeps_custom (ops : list (OpTagger * Z))
    (clean : bool) (And Or AndNot AndMaybe Not Require : option string) :
  (exists defaults,
     OperatorsPlugin_init ops clean And Or AndNot AndMaybe Not Require
     = ops ++ defaults /\ List.length defaults <= 6) /\
  OperatorsPlugin_init ops true And Or AndNot AndMaybe Not Require = ops /\
  OperatorsPlugin_init ops clean None None None None None None = ops.
Proof.
  split; [| split; [reflexivity | now destruct clean]].
  unfold OperatorsPlugin_init. destruct clean; cbn [negb].
  - exists []. rewrite app_nil_r. split; [reflexivity | simpl; lia].
  - destruct (add_op_suffix Not (fun e => ot_with e NotGroup PrefixOperator)
                0%Z ops) as (m1 & -> & L1).
    destruct (add_op_suffix And (fun e => ot e AndGroup) 0%Z (ops ++ m1))
      as (m2 & -> & L2).
    destruct (add_op_suffix Or (fun e => ot e OrGroup) 0%Z
                ((ops ++ m1) ++ m2)) as (m3 & -> & L3).
    destruct (add_op_suffix AndNot (fun e => ot e AndNotGroup) (-5)%Z
                (((ops ++ m1) ++ m2) ++ m3)) as (m4 & -> & L4).
    destruct (add_op_suffix AndMaybe (fun e => ot e AndMaybeGroup) (-5)%Z
                ((((ops ++ m1) ++ m2) ++ m3) ++ m4)) as (m5 & -> & L5).
    destruct (add_op_suffix Require (fun e => ot e RequireGroup) 0%Z
                (((((ops ++ m1) ++ m2) ++ m3) ++ m4) ++ m5))
      as (m6 & -> & L6).
    exists (m1 ++ m2 ++ m3 ++ m4 ++ m5 ++ m6).
    rewrite <- !app_assoc. split; [reflexivity|].
    rewrite !length_app. lia.
Qed.

(** ** MultifieldPlugin.do_multifield *)

Lemma do_multifield_eq (self : MultifieldPlugin) (p : parser) (gt : grouptype)
    (ns : list node) (b : float) (f : option string) :
  do_multifield self p (Group gt ns b f)
  = Group gt (map (do_multifield_node self (do_multifield self p)) ns) b f.
Proof. reflexivity. Qed.

Lemma set_boost_fieldname (n : node) (v : float) :
  node_fieldname (set_boost n v) = node_fieldname n.
Proof. destruct n as [| | | | | | | | | | |[gt ns b f]]; reflexivity. Qed.

Lemma set_boost_text (n : node) (v : float) :
  node_text (set_boost n v) = node_text n.
Proof. destruct n as [| | | | | | | | | | |[gt ns b f]]; reflexivity. Qed.

Lemma set_boost_capability (n : node) (v : float) :
  has_fieldname (set_boost n v) = has_fieldname n /\
  is_group (set_boost n v) = is_group n.
Proof. destruct n as [| | | | | | | | | | |[gt ns b f]]; split; reflexivity. Qed.

(** Each copy carries the field it was made for. *)
Lemma fielded_copies_fields (self : MultifieldPlugin) (n : node) :
  is_group n = false ->
  has_fieldname n = true ->
  node_fieldname n = None ->
  map node_fieldname (fielded_copies self n) = map Some (mf_fieldnames self) /\
  map node_text (fielded_copies self n)
  = map (fun _ => node_text n) (mf_fieldnames self) /\
  forallb (leaf_ok fielded) (fielded_copies self n) = true.
Proof.
  intros Hng Hcap Hnone. unfold fielded_copies.
  induction (mf_fieldnames self) as [|fname fnames IH]; [auto|].
  destruct IH as (H1 & H2 & H3). cbn [map forallb]. rewrite H1, H2, H3.
  rewrite set_boost_fieldname, set_boost_text.
  destruct n; try discriminate; destruct a as [af ab asc aec];
    cbn [node_fieldname fieldname] in Hnone; subst af;
    repeat split; reflexivity.
Qed.

Lemma do_multifield_fielded (self : MultifieldPlugin) (p : parser) (g : group) :
  every_leaf fielded (do_multifield self p g) = true.
Proof.
  induction g as [gt ns b f IH] using group_rect_nested.
  rewrite do_multifield_eq, every_leaf_eq.
  induction IH as [|g l Hg _ IHl|n l Hn _ IHl]; cbn [map forallb].
  - reflexivity.
  - cbn [do_multifield_node]. now rewrite leaf_ok_group, Hg, IHl.
  - rewrite IHl, andb_true_r.
    assert (Hnode : do_multifield_node self (do_multifield self p) n
                    = if has_fieldname n && is_unset (node_fieldname n)
                      then GroupNode (new_group (mf_group self)
                                        (fielded_copies self n))
                      else n)
      by (destruct n; try reflexivity; discriminate).
    rewrite Hnode.
    destruct (has_fieldname n) eqn:Hcap; cbn [andb].
    + destruct (node_fieldname n) as [fld|] eqn:Hf; cbn [is_unset].
      * rewrite (leaf_ok_other fielded n Hn). unfold fielded.
        now rewrite Hcap, Hf.
      * rewrite leaf_ok_group. unfold new_group. rewrite every_leaf_eq.
        apply (fielded_copies_fields self n Hn Hcap Hf).
    + rewrite (leaf_ok_other fielded n Hn). unfold fielded. now rewrite Hcap.
Qed.

(** X25: [do_multifield] leaves no term without a field: in the tree it
    returns, every node that can carry a field name carries one, at any
    depth (with no field configured, an unfielded term becomes an empty
    group). *)
Theorem do_multifield_fields_all (self : MultifieldPlugin) (p : parser)
    (g : group) :
  every_leaf fielded (do_multifield self p g) = true.
Proof. apply do_multifield_fielded. Qed.

Lemma do_multifield_keeps_fielded (self : MultifieldPlugin) (p : parser)
    (g : group) :
  every_leaf fielded g = true -> do_multifield self p g = g.
Proof.
  induction g as [gt ns b f IH] using group_rect_nested.
  rewrite do_multifield_eq, every_leaf_eq. intros Hall. f_equal.
  induction IH as [|g l Hg _ IHl|n l Hn _ IHl]; cbn [map forallb] in *.
  - reflexivity.
  - apply andb_prop in Hall as [H1 H2]. cbn [do_multifield_node].
    rewrite leaf_ok_group in H1. now rewrite (Hg H1), (IHl H2).
  - apply andb_prop in Hall as [H1 H2]. rewrite (IHl H2). f_equal.
    rewrite (leaf_ok_other fielded n Hn) in H1. unfold fielded in H1.
    destruct n; try discriminate; cbn [do_multifield_node];
      try reflexivity; simpl in H1;
      cbn [has_fieldname node_fieldname andb];
      destruct (fieldname a); try discriminate; reflexivity.
Qed.

(** X26: [do_multifield] changes no node that has its field: a tree in
    which every term is fielded comes back as it is, and so running the
    filter twice gives what running it once gives. *)
Theorem do_multifield_idempotent (self : MultifieldPlugin) (p : parser)
    (g : group) :
  (every_leaf fielded g = true -> do_multifield self p g = g) /\
  do_multifield self p (do_multifield self p g) = do_multifield self p g.
Proof.
  split; [apply do_multifield_keeps_fielded|].
  apply do_multifield_keeps_fielded, do_multifield_fielded.
Qed.

Lemma do_multifield_idempotent_witness :
  do_multifield (mkMultifieldPlugin ["a"; "b"] [] OrGroup)
    (mkParser None "content" AndGroup)
    (Group AndGroup
       [TextNode Word "x" (mkAttrs (Some "body") 1%float None None)]
       1%float None)
  = Group AndGroup
      [TextNode Word "x" (mkAttrs (Some "body") 1%float None None)]
      1%float None.
Proof.
  apply (proj1 (do_multifield_idempotent
                  (mkMultifieldPlugin ["a"; "b"] [] OrGroup)
                  (mkParser None "content" AndGroup)
                  (Group AndGroup
                     [TextNode Word "x" (mkAttrs (Some "body") 1%float None None)]
                     1%float None))).
  reflexivity.
Defined.

(** X27: in the place of a term without a field, [do_multifield] puts a
    group of the configured kind with one copy of the term for each
    configured field, in the order of the fields, each copy with its
    field set and with the term's text; the nodes around it are treated
    on their own. *)
Theorem do_multifield_expands (self : MultifieldPlugin) (p : parser)
    (gt : grouptype) (b : float) (f : option string) (A B : list node)
    (k : textkind) (t : string) (a : attrs) :
  fieldname a = None ->
  let n := TextNode k t a in
  let copies := fielded_copies self n in
  do_multifield self p (Group gt (A ++ n :: B) b f)
  = Group gt
      (nodes (do_multifield self p (Group gt A b f))
       ++ GroupNode (new_group (mf_group self) copies)
       :: nodes (do_multifield self p (Group gt B b f))) b f /\
  map node_fieldname copies = map Some (mf_fieldnames self) /\
  map node_text copies = map (fun _ => Ok t) (mf_fieldnames self).
Proof.
  intros Hnone n copies. subst n copies. split.
  - rewrite !do_multifield_eq, map_app. cbn [map nodes do_multifield_node].
    cbn [has_fieldname node_fieldname]. rewrite Hnone. reflexivity.
  - destruct (fielded_copies_fields self (TextNode k t a) eq_refl eq_refl Hnone)
      as (H1 & H2 & _).
    split; [exact H1 | exact H2].
Qed.

Lemma do_multifield_expands_witness :
  map node_fieldname
    (fielded_copies (mkMultifieldPlugin ["a"; "b"] [] OrGroup) (WordNode "x"))
  = [Some "a"; Some "b"].
Proof.
  apply (do_multifield_expands (mkMultifieldPlugin ["a"; "b"] [] OrGroup)
           (mkParser None "content" AndGroup) AndGroup 1%float None [] []
           Word "x" default_attrs eq_refl).
Defined.

(** ** GtLtPlugin and FieldsPlugin together *)

(** X28: [do_gtlt] runs at priority 99, before [do_fieldnames] at 100, and
    the two make a fielded range of a field name, a comparison symbol and
    a term: for the field [name] (known to the schema, or with the first
    loop switched off) and a known symbol, the nodes of ["name:>t"] become
    the range that [make_range] builds from the term, with the field
    [name]. *)
Theorem do_gtlt_then_do_fieldnames (self : FieldsPlugin) (p : parser)
    (gt : grouptype) (b : float) (f : option string)
    (name original rel : string) (k : textkind) (t : string) (a : attrs) :
  known_rel rel = true ->
  keeps_unknown self p \/
  (exists sch, schema p = Some sch /\ in_schema name sch = true) ->
  (In (F_do_gtlt, 99) GtLtPlugin_filters /\
   In (F_do_fieldnames, 100) FieldsPlugin_filters /\ 99 < 100) /\
  exists r,
    make_range (TextNode k t a) rel = Ok r /\
    (g' <- do_gtlt p (Group gt [FieldnameNode name original; GtLtNode rel;
                                TextNode k t a] b f) ;;
     do_fieldnames 1 self p g')
    = Ok (Group gt [set_fieldname name false r] b f) /\
    node_fieldname (set_fieldname name false r) = Some name.
Proof.
  intros Hrel Hcfg. split; [simpl; intuition lia|].
  destruct (proj2 (proj2 (make_range_cases (TextNode k t a) rel)) eq_refl Hrel)
    as (r & Hr & Hnt & Hnm).
  exists r. split; [exact Hr|].
  assert (Hrange : exists s e se ee ra,
             r = RangeNode s e se ee ra /\ fieldname ra = None).
  { unfold make_range in Hr. cbn [node_text bind] in Hr.
    destruct (rel =? "<"); [inversion Hr; repeat eexists|].
    destruct (rel =? ">"); [inversion Hr; repeat eexists|].
    destruct ((rel =? "<=") || (rel =? "=<")); [inversion Hr; repeat eexists|].
    destruct ((rel =? ">=") || (rel =? "=>")); [inversion Hr; repeat eexists|].
    discriminate. }
  destruct Hrange as (s & e & se & ee & ra & -> & Hra).
  split; [| simpl; now rewrite Hra].
  unfold do_gtlt. cbn [nodes empty_copy do_gtlt_loop append app last_node rev
                       bind is_fieldname_node has_text andb].
  rewrite Hr. cbn [bind do_gtlt_loop append app].
  rewrite do_fieldnames_S.
  assert (Hfirst : first_loop self p
                     (Group gt [FieldnameNode name original;
                                RangeNode s e se ee ra] b f)
                   = Group gt [FieldnameNode name original;
                               RangeNode s e se ee ra] b f).
  { destruct Hcfg as [Hoff | (sch & Hs & Hin)];
      [now apply first_loop_off|].
    unfold first_loop. rewrite Hs. destruct (removeunknown self);
      [| reflexivity].
    rewrite remove_unknown_eq. cbn [nodes empty_copy fold_left].
    rewrite unknown_step_marker, Hin. reflexivity. }
  rewrite Hfirst. reflexivity.
Qed.

Lemma do_gtlt_then_do_fieldnames_witness :
  exists r,
    make_range (WordNode "100") ">" = Ok r /\
    (g' <- do_gtlt (mkParser None "content" AndGroup)
             (Group AndGroup [FieldnameNode "a" "a:"; GtLtNode ">";
                              WordNode "100"] 1%float None) ;;
     do_fieldnames 1 (mkFieldsPlugin true) (mkParser None "content" AndGroup) g')
    = Ok (Group AndGroup [set_fieldname "a" false r] 1%float None) /\
    node_fieldname (set_fieldname "a" false r) = Some "a".
Proof.
  apply (do_gtlt_then_do_fieldnames (mkFieldsPlugin true)
           (mkParser None "content" AndGroup) AndGroup 1%float None "a" "a:"
           ">" Word "100" default_attrs);
    [reflexivity | left; now left].
Defined.
